(** * SSHRunner: a model of pkg/minikube/command/ssh_runner.go

    The runner executes shell commands over an established SSH client,
    captures their output and pushes files with the scp sink protocol.
    This development embeds the Go code as executable Rocq definitions:

    - byte sequences ([]byte, the contents of a Go string) are [list byte];
    - Go's [int]/[int64] are [Z] (lengths far below 2^63, so no wrap-around);
    - a Go [error] is the inductive [error], [nil] is [None];
    - goroutines are interleaved by an explicit schedule, so a statement
      quantified over schedules covers every interleaving;
    - the SSH transport, the file to copy and the log are collaborators
      that are scripted by records. *)

From Stdlib Require Import ZArith List Lia.
From Stdlib Require Import Strings.String Strings.Ascii Strings.Byte.
From stdpp Require Import base list gmap strings pretty.

Abbreviation bytes := (list byte).

(** The newline character of Go's ["\n"]. *)
Definition nl : string := String (ascii_of_nat 10) EmptyString.

(** ** Ordered merges of two sequences

    Two goroutines that each perform a fixed sequence of atomic actions
    produce one of the order-preserving merges of the two sequences. *)

Inductive Shuffle {A : Type} : list A -> list A -> list A -> Prop :=
| Shuffle_nil : Shuffle [] [] []
| Shuffle_l x xs ys zs : Shuffle xs ys zs -> Shuffle (x :: xs) ys (x :: zs)
| Shuffle_r y xs ys zs : Shuffle xs ys zs -> Shuffle xs (y :: ys) (y :: zs).

(** [interleave sched xs ys] resolves the merge with a schedule: [true]
    takes the next element of [xs], [false] the next one of [ys]; when the
    schedule is exhausted, or one side is, the rest follows in order. *)
Fixpoint interleave {A : Type} (sched : list bool) (xs ys : list A) : list A :=
  match sched with
  | [] => xs ++ ys
  | true :: sched' =>
      match xs with
      | [] => ys
      | x :: xs' => x :: interleave sched' xs' ys
      end
  | false :: sched' =>
      match ys with
      | [] => xs
      | y :: ys' => y :: interleave sched' xs ys'
      end
  end.

(** ** The synchronized capture buffer: [singleWriter]

    [singleWriter.Write] is [w.mu.Lock(); defer w.mu.Unlock(); return
    w.b.Write(p)].  [bytes.Buffer.Write] is not atomic: it reads the
    current length, reslices the buffer to make room and copies the
    chunk into the room.  Each of these is one step of the machine
    below, so that the effect of the mutex is visible. *)

Module SingleWriter.

Inductive tid : Type := T1 | T2.

(** Where a stream stands inside one call of [Write]. *)
Inductive pc : Type :=
| Outside              (* not inside Write *)
| Locked               (* w.mu.Lock() has returned *)
| GotLen (l : nat)     (* b.Write: l := len(b.buf) *)
| Grown (l : nat)      (* b.Write: b.buf = b.buf[:l+n] *)
| Copied.              (* b.Write: copy(b.buf[l:], p); the deferred Unlock is pending *)

Record stream : Type := { todo : list bytes; at_pc : pc }.

Record singleWriter : Type := { b : bytes; mu : bool }.

Record state : Type := { w : singleWriter; s1 : stream; s2 : stream }.

(** One step of a stream that writes the chunks [todo] one after the
    other.  [Lock] on a held mutex blocks: the step changes nothing. *)
Definition stream_step (w : singleWriter) (s : stream) : singleWriter * stream :=
  match todo s with
  | [] => (w, s)
  | p :: rest =>
      match at_pc s with
      | Outside =>
          if mu w then (w, s)
          else ({| b := b w; mu := true |}, {| todo := todo s; at_pc := Locked |})
      | Locked =>
          (w, {| todo := todo s; at_pc := GotLen (length (b w)) |})
      | GotLen l =>
          ({| b := resize (l + length p) x00 (b w); mu := mu w |},
           {| todo := todo s; at_pc := Grown l |})
      | Grown l =>
          ({| b := list_inserts l p (b w); mu := mu w |},
           {| todo := todo s; at_pc := Copied |})
      | Copied =>
          ({| b := b w; mu := false |}, {| todo := rest; at_pc := Outside |})
      end
  end.

Definition step (t : tid) (st : state) : state :=
  match t with
  | T1 => let '(w', s') := stream_step (w st) (s1 st) in
          {| w := w'; s1 := s'; s2 := s2 st |}
  | T2 => let '(w', s') := stream_step (w st) (s2 st) in
          {| w := w'; s1 := s1 st; s2 := s' |}
  end.

Definition run (sched : list tid) (st : state) : state :=
  fold_left (fun st t => step t st) sched st.

Definition init (cs1 cs2 : list bytes) : state :=
  {| w := {| b := []; mu := false |};
     s1 := {| todo := cs1; at_pc := Outside |};
     s2 := {| todo := cs2; at_pc := Outside |} |}.

Definition finished (st : state) : Prop :=
  todo (s1 st) = [] /\ todo (s2 st) = [].

(** The same two streams on a bare [bytes.Buffer], without the mutex:
    only the three steps of [b.Write]. *)
Definition unlocked_step (w : singleWriter) (s : stream) : singleWriter * stream :=
  match todo s with
  | [] => (w, s)
  | p :: rest =>
      match at_pc s with
      | Outside =>
          (w, {| todo := todo s; at_pc := GotLen (length (b w)) |})
      | GotLen l =>
          ({| b := resize (l + length p) x00 (b w); mu := mu w |},
           {| todo := todo s; at_pc := Grown l |})
      | Grown l =>
          ({| b := list_inserts l p (b w); mu := mu w |},
           {| todo := rest; at_pc := Outside |})
      | Locked | Copied => (w, s)
      end
  end.

Definition racy_step (t : tid) (st : state) : state :=
  match t with
  | T1 => let '(w', s') := unlocked_step (w st) (s1 st) in
          {| w := w'; s1 := s'; s2 := s2 st |}
  | T2 => let '(w', s') := unlocked_step (w st) (s2 st) in
          {| w := w'; s1 := s1 st; s2 := s' |}
  end.

(** Steps a stream still has to take. *)
Definition pending (s : stream) : nat :=
  5 * length (todo s) -
  match at_pc s with
  | Outside => 0 | Locked => 1 | GotLen _ => 2 | Grown _ => 3 | Copied => 4
  end.

Definition remaining (st : state) : nat := pending (s1 st) + pending (s2 st).

(** What the buffer holds while a stream is inside [Write], given the
    bytes [base] appended by the calls that have returned. *)
Definition inside (w : singleWriter) (s : stream) (base : bytes) : Prop :=
  match at_pc s, todo s with
  | Outside, _ => False
  | _, [] => False
  | Locked, _ :: _ => b w = base
  | GotLen l, _ :: _ => b w = base /\ l = length base
  | Grown l, p :: _ => b w = base ++ replicate (length p) x00 /\ l = length base
  | Copied, p :: _ => b w = base ++ p
  end.

(** The mutex is held exactly while one stream is inside [Write], and the
    other stream is then outside. *)
Definition exclusive (st : state) (base : bytes) : Prop :=
  match at_pc (s1 st), at_pc (s2 st) with
  | Outside, Outside => mu (w st) = false /\ b (w st) = base
  | _, Outside => mu (w st) = true /\ inside (w st) (s1 st) base
  | Outside, _ => mu (w st) = true /\ inside (w st) (s2 st) base
  | _, _ => False
  end.

(** Invariant: the calls that have returned appended their chunks whole,
    in an order that merges the two streams. *)
Definition Inv (cs1 cs2 : list bytes) (st : state) : Prop :=
  exists d1 d2 c,
    cs1 = d1 ++ todo (s1 st) /\ cs2 = d2 ++ todo (s2 st) /\
    Shuffle d1 d2 c /\ exclusive st (concat c).

End SingleWriter.

(** ** Errors and the log *)

(** Go [error] values.  [Wrap] is [errors.Wrap]/[errors.Wrapf] of
    github.com/pkg/errors, [Errorf] is [fmt.Errorf] (its result only
    keeps the rendered text), [Failure] is any other error of a
    collaborator. *)
Inductive error : Type :=
| io_EOF
| ErrShortWrite
| ExitError (status : Z)
| ExitMissingError
| Failure (msg : string)
| Wrap (cause : error) (msg : string)
| Errorf (msg : string).

(** [err.Error()] *)
Fixpoint Error (e : error) : string :=
  match e with
  | io_EOF => "EOF"
  | ErrShortWrite => "short write"
  | ExitError n => "Process exited with status " +:+ pretty n
  | ExitMissingError =>
      "wait: remote command exited without exit status or exit signal"
  | Failure msg => msg
  | Wrap cause msg => msg +:+ ": " +:+ Error cause
  | Errorf msg => msg
  end.

(** [err == io.EOF] *)
Definition is_EOF (e : error) : bool :=
  match e with io_EOF => true | _ => false end.

Inductive severity : Type := INFO | WARNING | ERROR.

Abbreviation Log := (list (severity * string)).

(** ** The transport collaborator (golang.org/x/crypto/ssh)

    A [Stream] is what reading a pipe yields: the chunks, then end of
    stream ([None]) or a read error. *)
Record Stream : Type := { chunks : list bytes; ending : option error }.

(** How a remote command ends. *)
Inductive Outcome : Type :=
| Exited (status : Z)
| NoExitStatus
| TransportFailed (e : error).

Definition exit_status (o : Outcome) : option Z :=
  match o with Exited n => Some n | _ => None end.

(** The error of [Session.Wait]: nil exactly for exit status zero. *)
Definition wait_error (o : Outcome) : option error :=
  match o with
  | Exited n => if (n =? 0)%Z then None else Some (ExitError n)
  | NoExitStatus => Some ExitMissingError
  | TransportFailed e => Some e
  end.

(** What running one command on the remote host produces. [collected]
    is what the library's own [Session.CombinedOutput] gathers. *)
Record Remote : Type := {
  stdout : Stream;
  stderr : Stream;
  outcome : Outcome;
  collected : bytes
}.

(** The remote end of one session. *)
Record Channel : Type := {
  StdoutPipe_err : option error;
  StderrPipe_err : option error;
  StdinPipe_err : option error;
  exec : string -> Remote;
  Close_err : option error
}.

Record Session : Type := { sid : nat; chan : Channel }.

(** [ssh.Client]: the outcome of its n-th [NewSession] call. *)
Definition Client : Type := nat -> error + Channel.

Inductive event : Type :=
| Opened (id : nat)
| Started (id : nat) (cmd : string)
| Closed (id : nat).

(** What the runner does to the outside: sessions opened, commands
    started and sessions closed, in order, and the glog output. *)
Record World : Type := { dialed : nat; trace : list event; log : Log }.

Definition glog (sev : severity) (msg : string) (σ : World) : World :=
  {| dialed := dialed σ; trace := trace σ; log := log σ ++ [(sev, msg)] |}.

Definition emit (ev : event) (σ : World) : World :=
  {| dialed := dialed σ; trace := trace σ ++ [ev]; log := log σ |}.

Definition NewSession (c : Client) (σ : World) : World * (error + Session) :=
  let σ' := {| dialed := S (dialed σ); trace := trace σ; log := log σ |} in
  match c (dialed σ) with
  | inl e => (σ', inl e)
  | inr ch => (emit (Opened (dialed σ)) σ', inr {| sid := dialed σ; chan := ch |})
  end.

Definition Session_Close (s : Session) (σ : World) : World * option error :=
  (emit (Closed (sid s)) σ, Close_err (chan s)).

(** [Session.Run]: start the command and wait for it. *)
Definition Session_Run (s : Session) (cmd : string) (σ : World)
  : World * option error :=
  (emit (Started (sid s) cmd) σ, wait_error (outcome (exec (chan s) cmd))).

(** [Session.CombinedOutput] of the library. *)
Definition Session_CombinedOutput (s : Session) (cmd : string) (σ : World)
  : World * (bytes * option error) :=
  (emit (Started (sid s) cmd) σ,
   (collected (exec (chan s) cmd), wait_error (outcome (exec (chan s) cmd)))).

(** ** Buffers and writers

    [bytes.Buffer] and [singleWriter] values live in a store, so that
    passing the same [&combined] twice is visible as aliasing. *)
Abbreviation Heap := (gmap nat bytes).

Definition contents (h : Heap) (w : nat) : bytes := default [] (h !! w).

(** [buf.String()] *)
Definition Buffer_String (h : Heap) (w : nat) : string :=
  string_of_list_byte (contents h w).

(** The atomic actions of a goroutine of [teeSSH]: one [Write] to a
    capture buffer (atomic for a [singleWriter] by its mutex, and for a
    [bytes.Buffer] because only one goroutine holds it), or one glog call. *)
Inductive action : Type :=
| Append (w : nat) (p : bytes)
| Glog (sev : severity) (msg : string).

Definition perform (a : action) (hσ : Heap * World) : Heap * World :=
  match a with
  | Append w p => (alter (fun buf => buf ++ p) w (fst hσ), snd hσ)
  | Glog sev msg => (fst hσ, glog sev msg (snd hσ))
  end.

Definition perform_all (acts : list action) (hσ : Heap * World) : Heap * World :=
  fold_left (fun hσ a => perform a hσ) acts hσ.

(** The chunks an action sequence appends to the buffer [w], and the
    log entries it makes. *)
Fixpoint appends (w : nat) (acts : list action) : list bytes :=
  match acts with
  | [] => []
  | Append w' p :: rest =>
      if Nat.eqb w w' then p :: appends w rest else appends w rest
  | Glog _ _ :: rest => appends w rest
  end.

Fixpoint logged (acts : list action) : Log :=
  match acts with
  | [] => []
  | Append _ _ :: rest => logged rest
  | Glog sev msg :: rest => (sev, msg) :: logged rest
  end.

(** An [io.Writer] supplied by the caller: the [Write] calls it received
    and the error it answers to a call. *)
Record Writer : Type := {
  received : list bytes;
  answer : bytes -> option error
}.

Definition Writer_Write (w : Writer) (p : bytes) : Writer * option error :=
  ({| received := received w ++ [p]; answer := answer w |}, answer w p).

(** Modelled from the spec: [assets.CopyableFile], the file to copy; it
    exposes a byte length, a permission descriptor in octal text, a
    target directory, a target file name and a readable byte source. *)
Record CopyableFile : Type := {
  GetLength : Z;
  GetPermissions : string;
  GetTargetDir : string;
  GetTargetName : string;
  content : Stream
}.

(** What the file takes from the rest of the repository and from path
    handling: the log prefixes of package util, the delete command of
    command_runner.go, and [filepath.Join(path.Join(dir, name))]. *)
Class Imports : Type := {
  ErrPrefix : string;
  OutPrefix : string;
  getDeleteFileCommand : CopyableFile -> string;
  joinPath : string -> string -> string
}.

Section Runner.
Context `{Imports}.

(** ** The stream tee *)

(** Cut the bytes of a chunk into the lines they complete; [line] is the
    unfinished line so far. *)
Fixpoint split_lines (line : bytes) (bs : bytes) : list bytes * bytes :=
  match bs with
  | [] => ([], line)
  | c :: bs' =>
      if Byte.eqb c x0a
      then let '(ls, rest) := split_lines [] bs' in (line :: ls, rest)
      else split_lines (line ++ [c]) bs'
  end.

Fixpoint tee_chunks (prefix : string) (w : nat) (line : bytes) (cs : list bytes)
  : list action * bytes :=
  match cs with
  | [] => ([], line)
  | c :: cs' =>
      let '(ls, line') := split_lines line c in
      let '(acts, last) := tee_chunks prefix w line' cs' in
      (Append w c ::
       map (fun l => Glog INFO (prefix +:+ string_of_list_byte l)) ls ++ acts,
       last)
  end.

(** Modelled from the spec: [util.TeePrefix] reads one pipe until end of
    stream, writes each chunk unmodified to the capture buffer and logs
    it line by line under the prefix; it returns an error only if the
    read fails.  The result is the sequence of its actions and its
    return value. *)
Definition TeePrefix (prefix : string) (r : Stream) (w : nat)
  : list action * option error :=
  let '(acts, last) := tee_chunks prefix w [] (chunks r) in
  match ending r with
  | Some e => (acts, Some e)
  | None =>
      (acts ++ match last with
               | [] => []
               | _ :: _ => [Glog INFO (prefix +:+ string_of_list_byte last)]
               end, None)
  end.

(** The body of one goroutine of [teeSSH]. *)
Definition tee_task (what : string) (tee : list action * option error)
  : list action :=
  match snd tee with
  | Some e => fst tee ++ [Glog ERROR (what +:+ Error e)]
  | None => fst tee
  end.

(** ** teeSSH *)
Definition teeSSH (sched : list bool) (s : Session) (cmd : string)
    (outB errB : nat) (h : Heap) (σ : World) : Heap * World * option error :=
  match StdoutPipe_err (chan s) with
  | Some e => (h, σ, Some (Wrap e "stdout"))
  | None =>
      match StderrPipe_err (chan s) with
      | Some e => (h, σ, Some (Wrap e "stderr"))
      | None =>
          let r := exec (chan s) cmd in
          let go_err := tee_task "tee stderr: " (TeePrefix ErrPrefix (stderr r) errB) in
          let go_out := tee_task "tee stdout: " (TeePrefix OutPrefix (stdout r) outB) in
          let '(σ1, err) := Session_Run s cmd σ in
          let '(h', σ2) := perform_all (interleave sched go_err go_out) (h, σ1) in
          (h', σ2, err)
      end
  end.

(** The deferred function of [Run]. *)
Definition close_logging (s : Session) (σ : World) : World :=
  let '(σ', err) := Session_Close s σ in
  match err with
  | Some e => if is_EOF e then σ' else glog ERROR ("session close: " +:+ Error e) σ'
  | None => σ'
  end.

(** [defer sess.Close()] *)
Definition close_silently (s : Session) (σ : World) : World :=
  fst (Session_Close s σ).

(** ** Run *)
Definition Run (sched : list bool) (c : Client) (cmd : string) (σ : World)
  : World * option error :=
  let σ0 := glog INFO ("SSH: " +:+ cmd) σ in
  match NewSession c σ0 with
  | (σ1, inl e) => (σ1, Some (Wrap e "NewSession"))
  | (σ1, inr sess) =>
      let outB := 0 in
      let errB := 1 in
      let h := <[errB := []]> (<[outB := []]> (∅ : Heap)) in
      let '(h', σ2, err) := teeSSH sched sess cmd outB errB h σ1 in
      let result :=
        match err with
        | Some e =>
            Some (Wrap e ("command failed: " +:+ cmd +:+ nl +:+
                          "stdout: " +:+ Buffer_String h' outB +:+ nl +:+
                          "stderr: " +:+ Buffer_String h' errB))
        | None => None
        end in
      (close_logging sess σ2, result)
  end.

(** ** CombinedOutput *)
Definition CombinedOutput (sched : list bool) (c : Client) (cmd : string)
    (σ : World) : World * (string * option error) :=
  let σ0 := glog INFO ("Run with output: " +:+ cmd) σ in
  match NewSession c σ0 with
  | (σ1, inl e) => (σ1, (EmptyString, Some (Wrap e "NewSession")))
  | (σ1, inr sess) =>
      let combined := 0 in
      let h := <[combined := []]> (∅ : Heap) in
      let '(h', σ2, err) := teeSSH sched sess cmd combined combined h σ1 in
      let out := Buffer_String h' combined in
      (close_silently sess σ2, (out, err))
  end.

(** ** CombinedOutputTo *)
Definition CombinedOutputTo (sched : list bool) (c : Client) (cmd : string)
    (w : Writer) (σ : World) : World * Writer * option error :=
  let '(σ', (out, err)) := CombinedOutput sched c cmd σ in
  match err with
  | Some e => (σ', w, Some e)
  | None =>
      let '(w', err') := Writer_Write w (list_byte_of_string out) in
      (σ', w', err')
  end.

(** ** Remove *)
Definition Remove (c : Client) (f : CopyableFile) (σ : World)
  : World * option error :=
  match NewSession c σ with
  | (σ1, inl e) => (σ1, Some (Wrap e "getting ssh session"))
  | (σ1, inr sess) =>
      let cmd := getDeleteFileCommand f in
      let '(σ2, err) := Session_Run sess cmd σ1 in
      (close_silently sess σ2, err)
  end.

(** ** Copy

    The session's input channel [w].  [written] is what has been handed
    to [Write], in order; [accepted] is what the channel took of it.  A
    [Write] after the remote command has ended ([gone]) is answered with
    EOF and its bytes are not accepted.  A [Write] on a channel that has
    been closed fails with EOF as well. *)
Record Pipe : Type := { written : bytes; accepted : bytes; closed : bool }.

Definition Pipe_Write (gone : bool) (w : Pipe) (p : bytes)
  : Pipe * (nat * option error) :=
  if closed w then (w, (0, Some io_EOF))
  else if gone
  then ({| written := written w ++ p; accepted := accepted w; closed := false |},
        (0, Some io_EOF))
  else ({| written := written w ++ p; accepted := accepted w ++ p; closed := false |},
        (length p, None)).

Definition Pipe_Close (w : Pipe) : Pipe * option error :=
  ({| written := written w; accepted := accepted w; closed := true |},
   if closed w then Some io_EOF else None).

(** [fmt.Fprint(w, s)]; the result is dropped, as in the source. *)
Definition Fprint (gone : bool) (w : Pipe) (s : string) : Pipe :=
  fst (Pipe_Write gone w (list_byte_of_string s)).

(** The file's content source while it is read; [reads] counts the calls
    of [Read]. *)
Record Reader : Type := { unread : list bytes; fin : option error; reads : nat }.

Definition open_content (f : CopyableFile) : Reader :=
  {| unread := chunks (content f); fin := ending (content f); reads := 0 |}.

(** The loop of [io.Copy]: read a chunk, write it, until the source ends
    or a read or write fails.  The loop runs as one step: the remote
    command has ended ([gone]) before its first write or has not ended by
    its last. *)
Fixpoint copyBuffer (gone : bool) (dst : Pipe) (cs : list bytes)
    (fin : option error) (reads : nat) (n : Z)
  : Pipe * Reader * (Z * option error) :=
  match cs with
  | [] =>
      (dst, {| unread := []; fin := fin; reads := S reads |},
       (n, match fin with
           | Some er => if is_EOF er then None else Some er
           | None => None
           end))
  | c :: cs' =>
      match c with
      | [] => copyBuffer gone dst cs' fin (S reads) n
      | _ :: _ =>
          let '(dst', (nw, ew)) := Pipe_Write gone dst c in
          let n' := (n + Z.of_nat nw)%Z in
          match ew with
          | Some e =>
              (dst', {| unread := cs'; fin := fin; reads := S reads |}, (n', Some e))
          | None =>
              if Nat.eqb nw (length c)
              then copyBuffer gone dst' cs' fin (S reads) n'
              else (dst', {| unread := cs'; fin := fin; reads := S reads |},
                    (n', Some ErrShortWrite))
          end
      end
  end.

Definition io_Copy (gone : bool) (dst : Pipe) (src : Reader)
  : Pipe * Reader * (Z * option error) :=
  copyBuffer gone dst (unread src) (fin src) (reads src) 0.

(** [fmt.Sprintf("C%s %d %s\n", f.GetPermissions(), f.GetLength(), f.GetTargetName())] *)
Definition scp_header (f : CopyableFile) : string :=
  "C" +:+ GetPermissions f +:+ " " +:+ pretty (GetLength f) +:+ " " +:+
  GetTargetName f +:+ nl.

(** [fmt.Sprintf("sudo mkdir -p %s && sudo scp -t %s", dir, dir)] *)
Definition scp_command (f : CopyableFile) : string :=
  "sudo mkdir -p " +:+ GetTargetDir f +:+ " && sudo scp -t " +:+ GetTargetDir f.

(** The error of the writer when the copied count is not the length. *)
Definition size_mismatch (f : CopyableFile) (copied : Z) : error :=
  Errorf (GetTargetName f +:+ ": expected to copy " +:+ pretty (GetLength f) +:+
          " bytes, but copied " +:+ pretty copied +:+ " instead").

(** The error of [Copy] when the remote command fails:
    [fmt.Errorf("%s: %s\noutput: %s", scp, err, out)]. *)
Definition scp_failure (f : CopyableFile) (e : error) (out : bytes) : error :=
  Errorf (scp_command f +:+ ": " +:+ Error e +:+ nl +:+
          "output: " +:+ string_of_list_byte out).

(** The same format when [err] is nil by the time it is formatted. *)
Definition scp_failure_nil (f : CopyableFile) (out : bytes) : error :=
  Errorf (scp_command f +:+ ": %!s(<nil>)" +:+ nl +:+
          "output: " +:+ string_of_list_byte out).

(** [Copy] itself, the function it passes to [g.Go], and the remote
    command, whose end is a step of its own. *)
Inductive thread : Type := Main | Writer_task | Remote_end.

(** Where [Copy] itself stands after [g.Go].  In [InCombinedOutput] the
    command has been started and the call waits for its end, when it
    returns [out] and [e]. *)
Inductive main_pc : Type :=
| AtCombinedOutput              (* out, err := sess.CombinedOutput(scp) *)
| InCombinedOutput (out : bytes) (e : option error)
| AtCheck                       (* if err != nil *)
| AtFormat                      (* return fmt.Errorf(..., scp, err, out) *)
| AtWait                        (* return g.Wait() *)
| Returned (r : option error).

(** Where the function passed to [g.Go] stands. *)
Inductive writer_pc : Type :=
| WHeader                       (* fmt.Fprint(w, header); if f.GetLength() == 0 *)
| WEmpty                        (* the 0 byte asset branch *)
| WCopy                         (* io.Copy(w, f) *)
| WStore (n : Z) (e : option error)  (* copied, err = the two results *)
| WCheckErr                     (* if err != nil *)
| WCheckSize                    (* if copied != int64(f.GetLength()) *)
| WTerminator                   (* fmt.Fprint(w, "\x00") *)
| WClose (r : option error)     (* the deferred w.Close() *)
| WDone (r : option error).

(** The variables that [Copy] and its goroutine share: [err] and
    [copied] are the variables of [Copy] that the closure assigns.
    [remote_ended] tells whether the remote command has ended. *)
Record CopyState : Type := {
  world : World;
  stdin : Pipe;
  file : Reader;
  err_var : option error;
  copied_var : Z;
  out_var : bytes;
  main : main_pc;
  writer : writer_pc;
  remote_ended : bool
}.

Definition writer_step (f : CopyableFile) (st : CopyState) : CopyState :=
  match writer st with
  | WHeader =>
      {| world := world st;
         stdin := Fprint (remote_ended st) (stdin st) (scp_header f);
         file := file st; err_var := err_var st; copied_var := copied_var st;
         out_var := out_var st; main := main st;
         writer := if (GetLength f =? 0)%Z then WEmpty else WCopy;
         remote_ended := remote_ended st |}
  | WEmpty =>
      {| world := glog WARNING (GetTargetName f +:+ " is a 0 byte asset!") (world st);
         stdin := Fprint (remote_ended st) (stdin st) (String zero EmptyString);
         file := file st; err_var := err_var st; copied_var := copied_var st;
         out_var := out_var st; main := main st;
         writer := WClose None;
         remote_ended := remote_ended st |}
  | WCopy =>
      let '(w', src', (n, e)) := io_Copy (remote_ended st) (stdin st) (file st) in
      {| world := world st; stdin := w'; file := src';
         err_var := err_var st; copied_var := copied_var st;
         out_var := out_var st; main := main st;
         writer := WStore n e;
         remote_ended := remote_ended st |}
  | WStore n e =>
      {| world := world st; stdin := stdin st; file := file st;
         err_var := e; copied_var := n;
         out_var := out_var st; main := main st;
         writer := WCheckErr;
         remote_ended := remote_ended st |}
  | WCheckErr =>
      {| world := world st; stdin := stdin st; file := file st;
         err_var := err_var st; copied_var := copied_var st;
         out_var := out_var st; main := main st;
         writer := match err_var st with
                   | Some e => WClose (Some (Wrap e "io.Copy"))
                   | None => WCheckSize
                   end;
         remote_ended := remote_ended st |}
  | WCheckSize =>
      {| world := world st; stdin := stdin st; file := file st;
         err_var := err_var st; copied_var := copied_var st;
         out_var := out_var st; main := main st;
         writer := if (copied_var st =? GetLength f)%Z then WTerminator
                   else WClose (Some (size_mismatch f (copied_var st)));
         remote_ended := remote_ended st |}
  | WTerminator =>
      {| world := glog INFO (GetTargetName f +:+ ": copied " +:+
                             pretty (copied_var st) +:+ " bytes") (world st);
         stdin := Fprint (remote_ended st) (stdin st) (String zero EmptyString);
         file := file st; err_var := err_var st; copied_var := copied_var st;
         out_var := out_var st; main := main st;
         writer := WClose None;
         remote_ended := remote_ended st |}
  | WClose r =>
      {| world := world st; stdin := fst (Pipe_Close (stdin st));
         file := file st; err_var := err_var st; copied_var := copied_var st;
         out_var := out_var st; main := main st;
         writer := WDone r;
         remote_ended := remote_ended st |}
  | WDone _ => st
  end.

(** [sess.CombinedOutput] starts the command and returns once it has
    ended; until then the step waits.  [err] is read twice on the failure
    path: by the test and by [fmt.Errorf]. *)
Definition main_step (sess : Session) (f : CopyableFile) (st : CopyState)
  : CopyState :=
  match main st with
  | AtCombinedOutput =>
      let '(σ', (out, e)) :=
        Session_CombinedOutput sess (scp_command f) (world st) in
      {| world := σ'; stdin := stdin st; file := file st;
         err_var := err_var st; copied_var := copied_var st;
         out_var := out_var st;
         main := InCombinedOutput out e; writer := writer st;
         remote_ended := remote_ended st |}
  | InCombinedOutput out e =>
      if remote_ended st then
        {| world := world st; stdin := stdin st; file := file st;
           err_var := e; copied_var := copied_var st; out_var := out;
           main := AtCheck; writer := writer st;
           remote_ended := remote_ended st |}
      else st
  | AtCheck =>
      {| world := world st; stdin := stdin st; file := file st;
         err_var := err_var st; copied_var := copied_var st;
         out_var := out_var st;
         main := match err_var st with
                 | Some _ => AtFormat
                 | None => AtWait
                 end;
         writer := writer st;
         remote_ended := remote_ended st |}
  | AtFormat =>
      {| world := world st; stdin := stdin st; file := file st;
         err_var := err_var st; copied_var := copied_var st;
         out_var := out_var st;
         main := Returned
                   (Some match err_var st with
                         | Some e => scp_failure f e (out_var st)
                         | None => scp_failure_nil f (out_var st)
                         end);
         writer := writer st;
         remote_ended := remote_ended st |}
  | AtWait =>
      match writer st with
      | WDone r =>
          {| world := world st; stdin := stdin st; file := file st;
             err_var := err_var st; copied_var := copied_var st;
             out_var := out_var st; main := Returned r; writer := writer st;
             remote_ended := remote_ended st |}
      | _ => st
      end
  | Returned _ => st
  end.

(** The remote command, once started, ends: from now on the channel
    takes nothing. *)
Definition remote_step (st : CopyState) : CopyState :=
  match main st with
  | AtCombinedOutput => st
  | _ =>
      {| world := world st; stdin := stdin st; file := file st;
         err_var := err_var st; copied_var := copied_var st;
         out_var := out_var st; main := main st; writer := writer st;
         remote_ended := true |}
  end.

Definition Copy_step (sess : Session) (f : CopyableFile) (t : thread)
    (st : CopyState) : CopyState :=
  match t with
  | Main => main_step sess f st
  | Writer_task => writer_step f st
  | Remote_end => remote_step st
  end.

Definition Copy_run (sess : Session) (f : CopyableFile) (sched : list thread)
    (st : CopyState) : CopyState :=
  fold_left (fun st t => Copy_step sess f t st) sched st.

(** The state in which [g.Go] leaves [Copy]. *)
Definition Copy_spawn (f : CopyableFile) (σ : World) : CopyState :=
  {| world := glog INFO ("Transferring " +:+ pretty (GetLength f) +:+ " bytes to " +:+
                         joinPath (GetTargetDir f) (GetTargetName f)) σ;
     stdin := {| written := []; accepted := []; closed := false |};
     file := open_content f;
     err_var := None; copied_var := 0; out_var := [];
     main := AtCombinedOutput; writer := WHeader;
     remote_ended := false |}.

(** A run of [Copy]: it fails before the goroutine exists, or it is the
    state that the schedule leads to. *)
Inductive CopyRun : Type :=
| Refused (σ : World) (e : error)
| Launched (sess : Session) (st : CopyState).

Definition Copy (sched : list thread) (c : Client) (f : CopyableFile) (σ : World)
  : CopyRun :=
  match NewSession c σ with
  | (σ1, inl e) => Refused σ1 (Wrap e "NewSession")
  | (σ1, inr sess) =>
      match StdinPipe_err (chan sess) with
      | Some e => Refused σ1 (Wrap e "StdinPipe")
      | None => Launched sess (Copy_run sess f sched (Copy_spawn f σ1))
      end
  end.

(** The value [Copy] has returned, if it has. *)
Definition Copy_result (r : CopyRun) : option (option error) :=
  match r with
  | Refused _ e => Some (Some e)
  | Launched _ st => match main st with Returned r => Some r | _ => None end
  end.

Definition Copy_world (r : CopyRun) : World :=
  match r with
  | Refused σ _ => σ
  | Launched _ st => world st
  end.

(** A schedule long enough to finish any run: the writer takes at most
    seven steps, [Copy] starts the command, the command ends, and [Copy]
    takes at most three more steps. *)
Definition to_the_end : list thread :=
  repeat Writer_task 7 ++ [Main; Remote_end] ++ repeat Main 3.

(** ** Invariants of a run of [Copy] *)

Definition header_bytes (f : CopyableFile) : bytes :=
  list_byte_of_string (scp_header f).

(** Everything the content source yields. *)
Definition body (f : CopyableFile) : bytes := concat (chunks (content f)).

(** The content source after [io.Copy] has read it to its end. *)
Definition drained (f : CopyableFile) : Reader :=
  {| unread := []; fin := ending (content f);
     reads := S (length (chunks (content f))) |}.

(** The error of [io.Copy] when no write fails: the read error, if any. *)
Definition copy_error (f : CopyableFile) : option error :=
  match ending (content f) with
  | Some er => if is_EOF er then None else Some er
  | None => None
  end.

(** The remote side of [Copy]: what [sess.CombinedOutput(scp)] answers. *)
Definition scp_remote (sess : Session) (f : CopyableFile) : Remote :=
  exec (chan sess) (scp_command f).

(** The channel has refused a write. *)
Definition short (w : Pipe) : Prop := length (accepted w) < length (written w).

(** The channel takes what it is given as long as the remote command
    runs, and nothing afterwards. *)
Definition taking (gone : bool) (w : Pipe) : Prop :=
  accepted w `prefix_of` written w /\ (gone = false -> accepted w = written w).

Definition channel_inv (st : CopyState) : Prop :=
  taking (remote_ended st) (stdin st).

(** The errors that are ever assigned to the shared variable [err]: the
    error of the remote command, the read error of the source, and EOF
    once the channel has refused a write. *)
Definition stored (sess : Session) (f : CopyableFile) (w : Pipe)
    (e : error) : Prop :=
  wait_error (outcome (scp_remote sess f)) = Some e \/
  copy_error f = Some e \/
  (e = io_EOF /\ short w).

(** After [io.Copy] has returned the count [n]: the whole source was
    written, or the channel refused a write and nothing was copied. *)
Definition copy_outcome (f : CopyableFile) (w : Pipe) (n : Z) : Prop :=
  (written w = header_bytes f ++ body f /\ n = Z.of_nat (length (body f)))
  \/
  (short w /\ n = 0%Z /\ written w `prefix_of` header_bytes f ++ body f).

(** How the writer can have ended, with result [r]. *)
Definition finished_as (sess : Session) (f : CopyableFile) (st : CopyState)
    (r : option error) : Prop :=
  (GetLength f = 0%Z /\ written (stdin st) = header_bytes f ++ [x00] /\
   file st = open_content f /\ r = None)
  \/
  (GetLength f <> 0%Z /\
   ((written (stdin st) = header_bytes f ++ body f ++ [x00] /\
     copied_var st = GetLength f /\
     copied_var st = Z.of_nat (length (body f)) /\ r = None)
    \/
    (copy_outcome f (stdin st) (copied_var st) /\
     exists e, stored sess f (stdin st) e /\ r = Some (Wrap e "io.Copy"))
    \/
    (copy_outcome f (stdin st) (copied_var st) /\ copied_var st <> GetLength f /\
     r = Some (size_mismatch f (copied_var st))))).

Definition writer_inv (sess : Session) (f : CopyableFile) (st : CopyState) : Prop :=
  match writer st with
  | WHeader =>
      written (stdin st) = [] /\ closed (stdin st) = false /\
      file st = open_content f
  | WEmpty =>
      written (stdin st) = header_bytes f /\ closed (stdin st) = false /\
      file st = open_content f /\ GetLength f = 0%Z
  | WCopy =>
      written (stdin st) = header_bytes f /\ closed (stdin st) = false /\
      file st = open_content f /\ GetLength f <> 0%Z
  | WStore n e =>
      closed (stdin st) = false /\ GetLength f <> 0%Z /\
      copy_outcome f (stdin st) n /\
      (forall e', e = Some e' -> stored sess f (stdin st) e')
  | WCheckErr | WCheckSize =>
      closed (stdin st) = false /\ GetLength f <> 0%Z /\
      copy_outcome f (stdin st) (copied_var st)
  | WTerminator =>
      closed (stdin st) = false /\ GetLength f <> 0%Z /\
      written (stdin st) = header_bytes f ++ body f /\
      copied_var st = Z.of_nat (length (body f)) /\
      copied_var st = GetLength f
  | WClose r => closed (stdin st) = false /\ finished_as sess f st r
  | WDone r => closed (stdin st) = true /\ finished_as sess f st r
  end.

Definition main_inv (sess : Session) (f : CopyableFile) (st : CopyState) : Prop :=
  match main st with
  | AtCombinedOutput => remote_ended st = false
  | InCombinedOutput out e =>
      out = collected (scp_remote sess f) /\
      e = wait_error (outcome (scp_remote sess f))
  | AtCheck | AtWait =>
      out_var st = collected (scp_remote sess f) /\ remote_ended st = true
  | AtFormat =>
      out_var st = collected (scp_remote sess f) /\ remote_ended st = true /\
      exists e, stored sess f (stdin st) e
  | Returned r =>
      remote_ended st = true /\
      (((exists e, stored sess f (stdin st) e) /\
        (r = Some (scp_failure_nil f (collected (scp_remote sess f))) \/
         exists e, stored sess f (stdin st) e /\
                   r = Some (scp_failure f e (collected (scp_remote sess f)))))
       \/ writer st = WDone r)
  end.

Definition world_inv (sess : Session) (f : CopyableFile) (σ : World)
    (st : CopyState) : Prop :=
  dialed (world st) = dialed σ /\
  trace (world st) =
    trace σ ++ match main st with
               | AtCombinedOutput => []
               | _ => [Started (sid sess) (scp_command f)]
               end.

Definition Copy_inv (sess : Session) (f : CopyableFile) (σ : World)
    (st : CopyState) : Prop :=
  channel_inv st /\
  writer_inv sess f st /\ main_inv sess f st /\ world_inv sess f σ st /\
  (forall e, err_var st = Some e -> stored sess f (stdin st) e).

(** Steps the writer, and then [Copy] itself, can still take. *)
Definition writer_rank (p : writer_pc) : nat :=
  match p with
  | WHeader => 7 | WCopy => 6 | WStore _ _ => 5 | WCheckErr => 4 | WCheckSize => 3
  | WEmpty => 2 | WTerminator => 2 | WClose _ => 1 | WDone _ => 0
  end.

Definition main_rank (p : main_pc) : nat :=
  match p with
  | AtCombinedOutput => 4 | InCombinedOutput _ _ => 3 | AtCheck => 2
  | AtFormat => 1 | AtWait => 1 | Returned _ => 0
  end.

End Runner.

(** ** Observations used in the statements *)

(** The text of [t] occurs in the text of [e]: what it takes for [t] to
    travel with [e], by wrapping or by formatting. *)
Definition mentions (e t : error) : bool :=
  match String.index 0 (Error t) (Error e) with
  | Some _ => true
  | None => false
  end.

Definition pipes_ok (ch : Channel) : bool :=
  match StdoutPipe_err ch, StderrPipe_err ch with
  | None, None => true
  | _, _ => false
  end.

(** The same channel with another answer to [Close]. *)
Definition with_Close_err (e : option error) (ch : Channel) : Channel :=
  {| StdoutPipe_err := StdoutPipe_err ch;
     StderrPipe_err := StderrPipe_err ch;
     StdinPipe_err := StdinPipe_err ch;
     exec := exec ch;
     Close_err := e |}.

(** The footprint of a call on the transport: it opens the session
    numbered [dialed σ], starts [cmds] on it and closes it as its last act. *)
Definition opened_and_closed (σ σ' : World) (cmds : list string) : Prop :=
  dialed σ' = S (dialed σ) /\
  trace σ' = trace σ ++ Opened (dialed σ) ::
             map (Started (dialed σ)) cmds ++ [Closed (dialed σ)].

(** The call opens the session numbered [dialed σ] and no other. *)
Definition opened_once (σ σ' : World) : Prop :=
  dialed σ' = S (dialed σ) /\
  exists evs, trace σ' = trace σ ++ Opened (dialed σ) :: evs /\
              forall id, ~ In (Opened id) evs.

(** The client whose session number [n] answers [Close] without error,
    and is otherwise the same. *)
Definition closing_cleanly (c : Client) (n : nat) : Client :=
  fun k => if Nat.eqb k n
           then match c k with
                | inr ch => inr (with_Close_err None ch)
                | inl e => inl e
                end
           else c k.

(** ** Sample collaborators *)

Definition sample_imports : Imports :=
  {| ErrPrefix := "! ";
     OutPrefix := "> ";
     getDeleteFileCommand :=
       fun f => "sudo rm " +:+ GetTargetDir f +:+ "/" +:+ GetTargetName f;
     joinPath := fun dir name => dir +:+ "/" +:+ name |}.

Definition fresh_world : World := {| dialed := 0; trace := []; log := [] |}.

(** A host on which every command prints [lo] on stdout and [hi] on
    stderr and ends with the given outcome. *)
Definition sample_remote (o : Outcome) (stdout_end : option error) : Remote :=
  {| stdout := {| chunks := [[x6c; x6f]; [x0a]]; ending := stdout_end |};
     stderr := {| chunks := [[x68; x69; x0a]]; ending := None |};
     outcome := o;
     collected := [x6e; x6f] |}.

Definition sample_channel (o : Outcome) (stdout_end close : option error) : Channel :=
  {| StdoutPipe_err := None;
     StderrPipe_err := None;
     StdinPipe_err := None;
     exec := fun _ => sample_remote o stdout_end;
     Close_err := close |}.

Definition sample_client (o : Outcome) (stdout_end close : option error) : Client :=
  fun _ => inr (sample_channel o stdout_end close).

(** A file of three bytes, delivered in two chunks. *)
Definition sample_file (len : Z) : CopyableFile :=
  {| GetLength := len;
     GetPermissions := "0644";
     GetTargetDir := "/etc";
     GetTargetName := "a.txt";
     content := {| chunks := [[x61; x62]; [x63]]; ending := None |} |}.

Definition empty_file : CopyableFile :=
  {| GetLength := 0;
     GetPermissions := "0644";
     GetTargetDir := "/etc";
     GetTargetName := "a.txt";
     content := {| chunks := []; ending := None |} |}.

Definition sample_session (o : Outcome) (stdout_end close : option error) : Session :=
  {| sid := 0; chan := sample_channel o stdout_end close |}.

(** The world right after the first session has been opened. *)
Definition first_session_open : World :=
  emit (Opened 0) {| dialed := 1; trace := []; log := [] |}.

(** The state a run of [Copy] on the sample host reaches. *)
Definition sample_copy (o : Outcome) (f : CopyableFile) (sched : list thread)
  : CopyState :=
  Copy_run (sample_session o None None) f sched
    (@Copy_spawn sample_imports f first_session_open).

(** The character [a] occurs in [s]. *)
Fixpoint occurs (a : ascii) (s : string) : bool :=
  match s with
  | EmptyString => false
  | String b s' => if Ascii.eqb a b then true else occurs a s'
  end.

(** More sample collaborators: a client that refuses every session, a
    channel without a stdout pipe, a command that is silent on stderr,
    and a file whose source fails after its three bytes. *)
Definition refusing_client : Client := fun _ => inl (Failure "dial failed").

Definition pipeless_channel : Channel :=
  {| StdoutPipe_err := Some (Failure "no pipe");
     StderrPipe_err := None;
     StdinPipe_err := Some (Failure "no pipe");
     exec := fun _ => sample_remote (Exited 0) None;
     Close_err := None |}.

Definition stdout_only_channel : Channel :=
  {| StdoutPipe_err := None;
     StderrPipe_err := None;
     StdinPipe_err := None;
     exec := fun _ =>
       {| stdout := {| chunks := [[x6c; x6f]; [x0a]]; ending := None |};
          stderr := {| chunks := []; ending := None |};
          outcome := Exited 0;
          collected := [] |};
     Close_err := None |}.

Definition failing_file : CopyableFile :=
  {| GetLength := 3;
     GetPermissions := "0644";
     GetTargetDir := "/etc";
     GetTargetName := "a.txt";
     content := {| chunks := [[x61; x62]; [x63]];
                   ending := Some (Failure "read failed") |} |}.

(** * Theorems *)

(** ** Ordered merges *)

Lemma Shuffle_snoc_l {A : Type} (xs ys zs : list A) (x : A) :
  Shuffle xs ys zs -> Shuffle (xs ++ [x]) ys (zs ++ [x]).
Proof.
  induction 1 as [| a xs ys zs _ IH | a xs ys zs _ IH]; simpl.
  - apply Shuffle_l, Shuffle_nil.
  - now apply Shuffle_l.
  - now apply Shuffle_r.
Qed.

Lemma Shuffle_snoc_r {A : Type} (xs ys zs : list A) (y : A) :
  Shuffle xs ys zs -> Shuffle xs (ys ++ [y]) (zs ++ [y]).
Proof.
  induction 1 as [| a xs ys zs _ IH | a xs ys zs _ IH]; simpl.
  - apply Shuffle_r, Shuffle_nil.
  - now apply Shuffle_l.
  - now apply Shuffle_r.
Qed.

Lemma Shuffle_nil_l {A : Type} (ys : list A) : Shuffle [] ys ys.
Proof. induction ys; [apply Shuffle_nil | now apply Shuffle_r]. Qed.

Lemma Shuffle_nil_r {A : Type} (xs : list A) : Shuffle xs [] xs.
Proof. induction xs; [apply Shuffle_nil | now apply Shuffle_l]. Qed.

Lemma Shuffle_nil_l_inv {A : Type} (ys zs : list A) : Shuffle [] ys zs -> zs = ys.
Proof.
  intros H. remember [] as xs eqn:E.
  induction H; try discriminate; [reflexivity | f_equal; auto].
Qed.

Lemma Shuffle_nil_r_inv {A : Type} (xs zs : list A) : Shuffle xs [] zs -> zs = xs.
Proof.
  intros H. remember [] as ys eqn:E.
  induction H; try discriminate; [reflexivity | f_equal; auto].
Qed.

Lemma Shuffle_app {A : Type} (xs ys : list A) : Shuffle xs ys (xs ++ ys).
Proof. induction xs; simpl; [apply Shuffle_nil_l | now apply Shuffle_l]. Qed.

Lemma Shuffle_length {A : Type} (xs ys zs : list A) :
  Shuffle xs ys zs -> length zs = length xs + length ys.
Proof. induction 1; simpl; lia. Qed.

Lemma Shuffle_concat_length {A : Type} (xs ys zs : list (list A)) :
  Shuffle xs ys zs ->
  length (concat zs) = length (concat xs) + length (concat ys).
Proof. induction 1; simpl; rewrite ?length_app; lia. Qed.

Lemma Shuffle_In {A : Type} (xs ys zs : list A) (a : A) :
  Shuffle xs ys zs -> (In a zs <-> In a xs \/ In a ys).
Proof. induction 1; simpl; tauto. Qed.

Lemma interleave_Shuffle {A : Type} (sched : list bool) (xs ys : list A) :
  Shuffle xs ys (interleave sched xs ys).
Proof.
  revert xs ys. induction sched as [| [] sched IH]; intros xs ys; simpl.
  - apply Shuffle_app.
  - destruct xs; [apply Shuffle_nil_l | apply Shuffle_l, IH].
  - destruct ys; [apply Shuffle_nil_r | apply Shuffle_r, IH].
Qed.

Lemma Shuffle_interleave {A : Type} (xs ys zs : list A) :
  Shuffle xs ys zs -> exists sched, interleave sched xs ys = zs.
Proof.
  induction 1 as [| a xs ys zs _ [s IH] | a xs ys zs _ [s IH]].
  - now exists [].
  - exists (true :: s). simpl. now rewrite IH.
  - exists (false :: s). simpl. now rewrite IH.
Qed.

(** ** The synchronized capture buffer *)

Module SingleWriterFacts.
Import SingleWriter.

Lemma grow_room (base : bytes) (n : nat) :
  resize (length base + n) x00 base = base ++ replicate n x00.
Proof.
  rewrite resize_spec, take_ge by lia. f_equal. f_equal. lia.
Qed.

Lemma copy_into_room (base p : bytes) :
  list_inserts (length base) p (base ++ replicate (length p) x00) = base ++ p.
Proof.
  replace (length base) with (length base + 0) at 1 by lia.
  rewrite list_inserts_app_r. f_equal.
  rewrite <- (app_nil_r (replicate _ _)).
  rewrite list_inserts_0_r by now rewrite length_replicate.
  apply app_nil_r.
Qed.

Lemma Inv_init cs1 cs2 : Inv cs1 cs2 (init cs1 cs2).
Proof.
  exists [], [], []. repeat split; simpl; auto using @Shuffle_nil.
Qed.

Local Ltac keep d1 d2 c :=
  exists d1, d2, c; unfold exclusive, inside; simpl;
  rewrite ?grow_room, ?copy_into_room; repeat split; auto.

Local Ltac commit d1 d2 c :=
  exists d1, d2, c; unfold exclusive; simpl;
  rewrite <- ?app_assoc, ?concat_app; simpl; rewrite ?app_nil_r;
  repeat split; auto using @Shuffle_snoc_l, @Shuffle_snoc_r.

Lemma Inv_step cs1 cs2 t st : Inv cs1 cs2 st -> Inv cs1 cs2 (step t st).
Proof.
  destruct st as [[buf m] [t1 p1] [t2 p2]].
  intros (d1 & d2 & c & E1 & E2 & HS & HE).
  unfold exclusive, inside in HE. simpl in *.
  destruct t; unfold step, stream_step; simpl.
  - destruct t1 as [| p r1]; [now exists d1, d2, c |].
    destruct p1, p2; simpl in *; try contradiction;
      repeat match goal with H : _ /\ _ |- _ => destruct H end; subst;
      first [ solve [keep d1 d2 c] | solve [commit (d1 ++ [p]) d2 (c ++ [p])] ].
  - destruct t2 as [| p r2]; [now exists d1, d2, c |].
    destruct p1, p2; simpl in *; try contradiction;
      repeat match goal with H : _ /\ _ |- _ => destruct H end; subst;
      first [ solve [keep d1 d2 c] | solve [commit d1 (d2 ++ [p]) (c ++ [p])] ].
Qed.

Lemma Inv_run cs1 cs2 sched st : Inv cs1 cs2 st -> Inv cs1 cs2 (run sched st).
Proof.
  revert st. induction sched as [| t sched IH]; intros st H; simpl; auto.
  apply IH, Inv_step, H.
Qed.

Lemma finished_dec st : {finished st} + {~ finished st}.
Proof.
  unfold finished. destruct (todo (s1 st)), (todo (s2 st));
    (left; now split) || (right; intros []; discriminate).
Qed.

(** No deadlock: as long as a chunk is left, some stream can take a step
    that brings the run closer to its end. *)
Lemma progress cs1 cs2 st :
  Inv cs1 cs2 st -> ~ finished st ->
  exists t, remaining (step t st) < remaining st.
Proof.
  destruct st as [[buf m] [t1 p1] [t2 p2]].
  intros (d1 & d2 & c & _ & _ & _ & HE) NF.
  unfold exclusive, inside, finished in *. simpl in *.
  destruct p1.
  - destruct p2.
    + destruct HE as [-> _].
      destruct t1 as [| p r1].
      * destruct t2 as [| q r2]; [exfalso; now apply NF |].
        exists T2. unfold remaining, step, stream_step, pending; simpl. lia.
      * exists T1. unfold remaining, step, stream_step, pending; simpl. lia.
    + destruct HE as [_ HE]. destruct t2; [contradiction |].
      exists T2. unfold remaining, step, stream_step, pending; simpl. lia.
    + destruct HE as [_ HE]. destruct t2; [contradiction |].
      exists T2. unfold remaining, step, stream_step, pending; simpl. lia.
    + destruct HE as [_ HE]. destruct t2; [contradiction |].
      exists T2. unfold remaining, step, stream_step, pending; simpl. lia.
    + destruct HE as [_ HE]. destruct t2; [contradiction |].
      exists T2. unfold remaining, step, stream_step, pending; simpl. lia.
  - destruct p2; try contradiction. destruct HE as [_ HE].
    destruct t1; [contradiction |].
    exists T1. unfold remaining, step, stream_step, pending; simpl. lia.
  - destruct p2; try contradiction. destruct HE as [_ HE].
    destruct t1; [contradiction |].
    exists T1. unfold remaining, step, stream_step, pending; simpl. lia.
  - destruct p2; try contradiction. destruct HE as [_ HE].
    destruct t1; [contradiction |].
    exists T1. unfold remaining, step, stream_step, pending; simpl. lia.
  - destruct p2; try contradiction. destruct HE as [_ HE].
    destruct t1; [contradiction |].
    exists T1. unfold remaining, step, stream_step, pending; simpl. lia.
Qed.

(** Every pair of streams can be run to the end. *)
Lemma completes cs1 cs2 :
  exists sched, finished (run sched (init cs1 cs2)).
Proof.
  assert (G : forall n st, Inv cs1 cs2 st -> remaining st <= n ->
                           exists sched, finished (run sched st)).
  { induction n as [| n IH]; intros st HI Hn.
    - destruct (finished_dec st) as [F | NF]; [now exists [] |].
      destruct (progress _ _ _ HI NF) as [t Ht]. lia.
    - destruct (finished_dec st) as [F | NF]; [now exists [] |].
      destruct (progress _ _ _ HI NF) as [t Ht].
      destruct (IH (step t st)) as [sched Hs]; [now apply Inv_step | lia |].
      now exists (t :: sched). }
  apply (G (remaining (init cs1 cs2))); [apply Inv_init | lia].
Qed.

(** Without the mutex the same two streams can lose a chunk: both read
    length 0, both make room for one byte, and the second copy lands on
    the first. *)
Example bare_buffer_loses_bytes :
  b (w (fold_left (fun st t => racy_step t st) [T1; T2; T1; T2; T1; T2]
          (init [[x61]] [[x62]]))) = [x62].
Proof. reflexivity. Qed.

(** C9: two streams append arbitrary chunks to one [singleWriter] through
    [Write]; under every schedule that runs both to the end, the buffer is
    the concatenation of the whole chunks in an order that merges the two
    streams (no chunk is split, lost or overwritten), and its length is
    the sum of the bytes of both streams. *)
Theorem singleWriter_appends_atomic (cs1 cs2 : list bytes) (sched : list tid) :
  finished (run sched (init cs1 cs2)) ->
  exists c, Shuffle cs1 cs2 c /\
            b (w (run sched (init cs1 cs2))) = concat c /\
            length (b (w (run sched (init cs1 cs2)))) =
              length (concat cs1) + length (concat cs2).
Proof.
  intros [F1 F2].
  destruct (Inv_run cs1 cs2 sched _ (Inv_init cs1 cs2))
    as (d1 & d2 & c & E1 & E2 & HS & HE).
  rewrite F1, app_nil_r in E1. rewrite F2, app_nil_r in E2. subst d1 d2.
  unfold exclusive, inside in HE. rewrite F1, F2 in HE.
  assert (Hb : b (w (run sched (init cs1 cs2))) = concat c).
  { destruct (at_pc (s1 (run sched (init cs1 cs2)))),
             (at_pc (s2 (run sched (init cs1 cs2)))); tauto. }
  exists c. split; [exact HS |]. split; [exact Hb |].
  rewrite Hb. now apply Shuffle_concat_length.
Qed.

Lemma singleWriter_appends_atomic_witness :
  let cs1 := [[x68; x69]; [x21]] in
  let cs2 := [[x6c; x6f]] in
  let sched := [T1; T2; T1; T1; T2; T1; T1; T2; T2; T1; T2; T2; T2; T1; T1; T1; T1; T1] in
  finished (run sched (init cs1 cs2)) /\
  exists c, Shuffle cs1 cs2 c /\
            b (w (run sched (init cs1 cs2))) = concat c /\
            length (b (w (run sched (init cs1 cs2)))) =
              length (concat cs1) + length (concat cs2).
Proof.
  intros cs1 cs2 sched.
  split; [split; reflexivity |].
  apply (singleWriter_appends_atomic cs1 cs2 sched). split; reflexivity.
Defined.

End SingleWriterFacts.

(** ** Action sequences *)

Lemma perform_all_app acts1 acts2 hσ :
  perform_all (acts1 ++ acts2) hσ = perform_all acts2 (perform_all acts1 hσ).
Proof. unfold perform_all. apply fold_left_app. Qed.

Lemma perform_all_heap (w : nat) (acts : list action) (h : Heap) (σ : World) :
  fst (perform_all acts (h, σ)) !! w =
  (fun buf => buf ++ concat (appends w acts)) <$> (h !! w).
Proof.
  revert h σ. induction acts as [| a acts IH]; intros h σ; simpl.
  - destruct (h !! w); simpl; [now rewrite app_nil_r | reflexivity].
  - destruct a as [w' p | sev msg]; simpl.
    + rewrite IH. destruct (Nat.eqb_spec w w') as [-> | Hne].
      * rewrite lookup_alter_eq. destruct (h !! w'); simpl; [| reflexivity].
        now rewrite <- app_assoc.
      * rewrite lookup_alter_ne by congruence. reflexivity.
    + apply IH.
Qed.

Lemma perform_all_world (acts : list action) (h : Heap) (σ : World) :
  snd (perform_all acts (h, σ)) =
  {| dialed := dialed σ; trace := trace σ; log := log σ ++ logged acts |}.
Proof.
  revert h σ. induction acts as [| a acts IH]; intros h σ; simpl.
  - rewrite app_nil_r. now destruct σ.
  - destruct a as [w' p | sev msg]; simpl; rewrite IH; [reflexivity |].
    simpl. now rewrite <- app_assoc.
Qed.

Lemma Shuffle_appends (w : nat) (xs ys zs : list action) :
  Shuffle xs ys zs -> Shuffle (appends w xs) (appends w ys) (appends w zs).
Proof.
  induction 1 as [| a xs ys zs _ IH | a xs ys zs _ IH]; simpl.
  - apply Shuffle_nil.
  - destruct a; [destruct (Nat.eqb w w0) |]; auto using @Shuffle_l.
  - destruct a; [destruct (Nat.eqb w w0) |]; auto using @Shuffle_r.
Qed.

Lemma Shuffle_logged (xs ys zs : list action) :
  Shuffle xs ys zs -> Shuffle (logged xs) (logged ys) (logged zs).
Proof.
  induction 1 as [| a xs ys zs _ IH | a xs ys zs _ IH]; simpl.
  - apply Shuffle_nil.
  - destruct a; auto using @Shuffle_l.
  - destruct a; auto using @Shuffle_r.
Qed.

Lemma appends_app w xs ys : appends w (xs ++ ys) = appends w xs ++ appends w ys.
Proof.
  induction xs as [| a xs IH]; simpl; [reflexivity |].
  destruct a; [destruct (Nat.eqb w w0) |]; simpl; now rewrite IH.
Qed.

Lemma logged_app xs ys : logged (xs ++ ys) = logged xs ++ logged ys.
Proof.
  induction xs as [| a xs IH]; simpl; [reflexivity |].
  destruct a; simpl; now rewrite IH.
Qed.

Lemma appends_Glogs w (g : bytes -> string) (ls : list bytes) :
  appends w (map (fun l => Glog INFO (g l)) ls) = [].
Proof. induction ls; simpl; auto. Qed.

Section RunnerFacts.
Context `{Imports}.

Lemma appends_tee_chunks w prefix w' line cs :
  appends w (fst (tee_chunks prefix w' line cs)) =
  if Nat.eqb w w' then cs else [].
Proof.
  revert line. induction cs as [| c cs IH]; intros line; simpl.
  - now destruct (Nat.eqb w w').
  - destruct (split_lines line c) as [ls line'].
    specialize (IH line').
    destruct (tee_chunks prefix w' line' cs) as [acts last]. simpl in *.
    rewrite appends_app, appends_Glogs, IH. simpl.
    now destruct (Nat.eqb w w').
Qed.

(** A tee appends exactly the chunks of its pipe to its own buffer, and
    nothing to any other. *)
Lemma appends_tee_task w what prefix r w' :
  appends w (tee_task what (TeePrefix prefix r w')) =
  if Nat.eqb w w' then chunks r else [].
Proof.
  unfold tee_task, TeePrefix.
  pose proof (appends_tee_chunks w prefix w' [] (chunks r)) as E.
  destruct (tee_chunks prefix w' [] (chunks r)) as [acts last]. simpl in E.
  destruct (ending r) as [e |]; simpl.
  - rewrite appends_app. simpl. now rewrite app_nil_r.
  - rewrite appends_app, E. destruct last; simpl; now rewrite app_nil_r.
Qed.

(** A tee whose read fails leaves the error in the log. *)
Lemma logged_tee_task what prefix r w e :
  ending r = Some e ->
  In (ERROR, what +:+ Error e) (logged (tee_task what (TeePrefix prefix r w))).
Proof.
  intros E. unfold tee_task, TeePrefix.
  destruct (tee_chunks prefix w [] (chunks r)) as [acts last].
  rewrite E. simpl. rewrite logged_app. apply in_or_app. right. now left.
Qed.

(** With both pipes at hand, [teeSSH] performs some merge of the actions
    of its two goroutines and returns what [s.Run] returned. *)
Lemma teeSSH_ok sched s cmd outB errB h σ :
  StdoutPipe_err (chan s) = None -> StderrPipe_err (chan s) = None ->
  exists acts,
    Shuffle
      (tee_task "tee stderr: " (TeePrefix ErrPrefix (stderr (exec (chan s) cmd)) errB))
      (tee_task "tee stdout: " (TeePrefix OutPrefix (stdout (exec (chan s) cmd)) outB))
      acts /\
    teeSSH sched s cmd outB errB h σ =
      (fst (perform_all acts (h, emit (Started (sid s) cmd) σ)),
       snd (perform_all acts (h, emit (Started (sid s) cmd) σ)),
       wait_error (outcome (exec (chan s) cmd))).
Proof.
  intros Ho He. unfold teeSSH. rewrite Ho, He. simpl.
  eexists. split; [apply (interleave_Shuffle sched) |].
  now destruct (perform_all _ _).
Qed.

Lemma teeSSH_no_pipes sched s cmd outB errB h σ :
  pipes_ok (chan s) = false ->
  exists e, teeSSH sched s cmd outB errB h σ = (h, σ, Some e).
Proof.
  unfold pipes_ok, teeSSH.
  destruct (StdoutPipe_err (chan s)); [eauto |].
  destruct (StderrPipe_err (chan s)); [eauto | discriminate].
Qed.

(** C7 (as amended): with both pipes at hand, [teeSSH] returns exactly
    the error of the session's [Run], nil when the command succeeds,
    whatever the tees report; a read error of a tee is written to the
    error log under [tee stdout: ] or [tee stderr: ], whether or not the
    command failed, and is not part of the returned error. *)
Theorem teeSSH_returns_command_error sched s cmd outB errB h σ :
  StdoutPipe_err (chan s) = None -> StderrPipe_err (chan s) = None ->
  snd (teeSSH sched s cmd outB errB h σ) = wait_error (outcome (exec (chan s) cmd)) /\
  (forall e, ending (stdout (exec (chan s) cmd)) = Some e ->
     In (ERROR, "tee stdout: " +:+ Error e)
        (log (snd (fst (teeSSH sched s cmd outB errB h σ))))) /\
  (forall e, ending (stderr (exec (chan s) cmd)) = Some e ->
     In (ERROR, "tee stderr: " +:+ Error e)
        (log (snd (fst (teeSSH sched s cmd outB errB h σ))))).
Proof.
  intros Ho He.
  destruct (teeSSH_ok sched s cmd outB errB h σ Ho He) as (acts & HS & ->).
  simpl. rewrite perform_all_world. simpl.
  pose proof (Shuffle_logged _ _ _ HS) as HL.
  split; [reflexivity |]. split; intros e E; apply in_or_app; right;
    apply (Shuffle_In _ _ _ _ HL); [right | left];
    now apply logged_tee_task.
Qed.

(** C5: when the session and both pipes are obtained, [Run] returns nil
    exactly when the remote command exits with status zero, and an error
    it returns is the command's error wrapped with the command, the
    captured stdout text and the captured stderr text. *)
Theorem Run_fails_iff_nonzero_exit sched (c : Client) cmd σ ch :
  c (dialed σ) = inr ch ->
  StdoutPipe_err ch = None -> StderrPipe_err ch = None ->
  (snd (Run sched c cmd σ) = None <->
   exit_status (outcome (exec ch cmd)) = Some 0%Z) /\
  (forall e, snd (Run sched c cmd σ) = Some e ->
     exists cause,
       wait_error (outcome (exec ch cmd)) = Some cause /\
       e = Wrap cause
             ("command failed: " +:+ cmd +:+ nl +:+
              "stdout: " +:+
              string_of_list_byte (concat (chunks (stdout (exec ch cmd)))) +:+ nl +:+
              "stderr: " +:+
              string_of_list_byte (concat (chunks (stderr (exec ch cmd)))))).
Proof.
  intros Hc Ho He. unfold Run, NewSession. simpl. rewrite Hc.
  set (sess := {| sid := dialed σ; chan := ch |}).
  set (σ1 := emit _ _).
  set (h := <[1 := []]> (<[0 := []]> (∅ : Heap))).
  destruct (teeSSH_ok sched sess cmd 0 1 h σ1 Ho He) as (acts & HS & ->).
  simpl.
  assert (E0 : Buffer_String (fst (perform_all acts (h, emit (Started (dialed σ) cmd) σ1))) 0
               = string_of_list_byte (concat (chunks (stdout (exec ch cmd))))).
  { unfold Buffer_String, contents. rewrite perform_all_heap.
    pose proof (Shuffle_appends 0 _ _ _ HS) as HA.
    rewrite !appends_tee_task in HA. simpl in HA.
    apply Shuffle_nil_l_inv in HA. rewrite HA. reflexivity. }
  assert (E1 : Buffer_String (fst (perform_all acts (h, emit (Started (dialed σ) cmd) σ1))) 1
               = string_of_list_byte (concat (chunks (stderr (exec ch cmd))))).
  { unfold Buffer_String, contents. rewrite perform_all_heap.
    pose proof (Shuffle_appends 1 _ _ _ HS) as HA.
    rewrite !appends_tee_task in HA. simpl in HA.
    apply Shuffle_nil_r_inv in HA. rewrite HA. reflexivity. }
  rewrite E0, E1. clear E0 E1.
  destruct (outcome (exec ch cmd)) as [n | | e0]; simpl.
  - destruct (Z.eqb_spec n 0) as [-> | Hn]; simpl.
    + split; [tauto | discriminate].
    + split; [split; [discriminate | intros [= ?]; contradiction] |].
      intros e [= <-]. eauto.
  - split; [split; discriminate |]. intros e [= <-]. eauto.
  - split; [split; discriminate |]. intros e [= <-]. eauto.
Qed.

(** C8: when the session and both pipes are obtained, [CombinedOutput]
    returns the text gathered in the single capture buffer, which is a
    merge of the stdout and stderr chunks, together with the error of the
    command; the text is the same whether that error is nil or not. *)
Theorem CombinedOutput_returns_capture sched (c : Client) cmd σ ch :
  c (dialed σ) = inr ch ->
  StdoutPipe_err ch = None -> StderrPipe_err ch = None ->
  exists merged,
    Shuffle (chunks (stderr (exec ch cmd))) (chunks (stdout (exec ch cmd))) merged /\
    snd (CombinedOutput sched c cmd σ) =
      (string_of_list_byte (concat merged), wait_error (outcome (exec ch cmd))).
Proof.
  intros Hc Ho He. unfold CombinedOutput, NewSession. simpl. rewrite Hc.
  set (sess := {| sid := dialed σ; chan := ch |}).
  set (σ1 := emit _ _).
  set (h := <[0 := []]> (∅ : Heap)).
  destruct (teeSSH_ok sched sess cmd 0 0 h σ1 Ho He) as (acts & HS & ->).
  simpl. exists (appends 0 acts). split.
  - pose proof (Shuffle_appends 0 _ _ _ HS) as HA.
    now rewrite !appends_tee_task in HA.
  - unfold Buffer_String, contents. rewrite perform_all_heap. reflexivity.
Qed.

(** C10: [CombinedOutputTo] runs [CombinedOutput]; when that returns an
    error it returns the same error and the destination writer receives
    nothing; otherwise the destination receives the captured text in
    exactly one [Write], whose error is the result. *)
Theorem CombinedOutputTo_forwards_on_success sched (c : Client) cmd (w : Writer) σ :
  fst (fst (CombinedOutputTo sched c cmd w σ)) = fst (CombinedOutput sched c cmd σ) /\
  match snd (snd (CombinedOutput sched c cmd σ)) with
  | Some e =>
      snd (CombinedOutputTo sched c cmd w σ) = Some e /\
      snd (fst (CombinedOutputTo sched c cmd w σ)) = w
  | None =>
      received (snd (fst (CombinedOutputTo sched c cmd w σ))) =
        received w ++
        [list_byte_of_string (fst (snd (CombinedOutput sched c cmd σ)))] /\
      snd (CombinedOutputTo sched c cmd w σ) =
        answer w (list_byte_of_string (fst (snd (CombinedOutput sched c cmd σ))))
  end.
Proof.
  unfold CombinedOutputTo.
  destruct (CombinedOutput sched c cmd σ) as [σ' [out [e |]]]; simpl; auto.
Qed.

(** ** Copy *)

Local Ltac fields :=
  cbn [world stdin file err_var copied_var out_var main writer remote_ended
       written accepted closed dialed trace log fst snd] in *.

(** *** The input channel *)

Lemma Pipe_Write_taking gone w p :
  taking gone w ->
  taking gone (fst (Pipe_Write gone w p)) /\
  (short w -> short (fst (Pipe_Write gone w p))).
Proof.
  intros [HP HA]. unfold Pipe_Write, taking, short.
  destruct (closed w); [auto |]. destruct gone; fields.
  - split; [split; [now apply prefix_app_r | discriminate] |].
    rewrite length_app. lia.
  - rewrite (HA eq_refl). split; [split; reflexivity |]. lia.
Qed.

Lemma copyBuffer_taking gone cs : forall w e k n,
  taking gone w ->
  taking gone (fst (fst (copyBuffer gone w cs e k n))) /\
  (short w -> short (fst (fst (copyBuffer gone w cs e k n)))).
Proof.
  induction cs as [| c cs IH]; intros w e k n HT; cbn [copyBuffer].
  - fields. auto.
  - destruct c as [| x c]; [now apply IH |].
    pose proof (Pipe_Write_taking gone w (x :: c) HT) as [HT' HS].
    destruct (Pipe_Write gone w (x :: c)) as [w' [nw [ew |]]]; fields; [auto |].
    destruct (Nat.eqb nw (length (x :: c))); fields; [| auto].
    destruct (IH w' e (S k) (n + Z.of_nat nw)%Z HT') as [HT'' HS'']. auto.
Qed.

Lemma Fprint_open gone (w a : bytes) (s : string) :
  Fprint gone {| written := w; accepted := a; closed := false |} s =
  {| written := w ++ list_byte_of_string s;
     accepted := if gone then a else a ++ list_byte_of_string s;
     closed := false |}.
Proof. now destruct gone. Qed.

Lemma copyBuffer_running (w a : bytes) (cs : list bytes) (e : option error)
    (k : nat) (n : Z) :
  copyBuffer false {| written := w; accepted := a; closed := false |} cs e k n =
  ({| written := w ++ concat cs; accepted := a ++ concat cs; closed := false |},
   {| unread := []; fin := e; reads := S (k + length cs) |},
   ((n + Z.of_nat (length (concat cs)))%Z,
    match e with
    | Some er => if is_EOF er then None else Some er
    | None => None
    end)).
Proof.
  revert w a k n. induction cs as [| c cs IH]; intros w a k n; simpl.
  - rewrite !app_nil_r, Z.add_0_r, Nat.add_0_r. reflexivity.
  - destruct c as [| x c].
    + rewrite IH. simpl.
      replace (S (k + length cs)) with (k + S (length cs)) by lia. reflexivity.
    + unfold Pipe_Write. simpl. rewrite Nat.eqb_refl, IH.
      rewrite <- !app_assoc. simpl.
      replace (S (k + length cs)) with (k + S (length cs)) by lia.
      replace (n + Z.of_nat (S (length c)) + Z.of_nat (length (concat cs)))%Z
        with (n + Z.of_nat (S (length (c ++ concat cs))))%Z
        by (rewrite length_app; lia).
      reflexivity.
Qed.

(** After the remote command has ended the first write of [io.Copy]
    fails: nothing is copied, and the error is EOF unless the source has
    no byte to give. *)
Lemma copyBuffer_gone (w a : bytes) (cs : list bytes) (e : option error)
    (k : nat) (n : Z) :
  let r := copyBuffer true {| written := w; accepted := a; closed := false |}
             cs e k n in
  accepted (fst (fst r)) = a /\ closed (fst (fst r)) = false /\
  fst (snd r) = n /\
  ((concat cs = [] /\ written (fst (fst r)) = w /\
    snd (snd r) = match e with
                  | Some er => if is_EOF er then None else Some er
                  | None => None
                  end)
   \/
   (exists c, c <> [] /\ c `prefix_of` concat cs /\
              written (fst (fst r)) = w ++ c /\ snd (snd r) = Some io_EOF)).
Proof.
  revert k. induction cs as [| c cs IH]; intros k; cbn [copyBuffer].
  - fields. auto 10.
  - destruct c as [| x c]; [apply IH |].
    unfold Pipe_Write. fields. rewrite Z.add_0_r.
    split; [reflexivity |]. split; [reflexivity |]. split; [reflexivity |].
    right. exists (x :: c). split; [discriminate |].
    split; [now apply prefix_app_r | auto].
Qed.

Lemma io_Copy_running (f : CopyableFile) (w a : bytes) :
  io_Copy false {| written := w; accepted := a; closed := false |} (open_content f) =
  ({| written := w ++ body f; accepted := a ++ body f; closed := false |},
   drained f, (Z.of_nat (length (body f)), copy_error f)).
Proof. unfold io_Copy, open_content. simpl. now rewrite copyBuffer_running. Qed.

Lemma io_Copy_gone (f : CopyableFile) (w a : bytes) :
  let r := io_Copy true {| written := w; accepted := a; closed := false |}
             (open_content f) in
  accepted (fst (fst r)) = a /\ closed (fst (fst r)) = false /\
  fst (snd r) = 0%Z /\
  ((body f = [] /\ written (fst (fst r)) = w /\ snd (snd r) = copy_error f)
   \/
   (exists c, c <> [] /\ c `prefix_of` body f /\
              written (fst (fst r)) = w ++ c /\ snd (snd r) = Some io_EOF)).
Proof. unfold io_Copy, open_content. cbn [unread fin reads]. apply copyBuffer_gone. Qed.

Lemma terminator_byte : list_byte_of_string (String zero EmptyString) = [x00].
Proof. reflexivity. Qed.

Lemma stored_mono sess f (w w' : Pipe) e :
  (short w -> short w') -> stored sess f w e -> stored sess f w' e.
Proof. unfold stored. intuition. Qed.

(** *** What a step of the writer leaves alone *)

Lemma writer_step_done f st r : writer st = WDone r -> writer_step f st = st.
Proof. intros E. unfold writer_step. now rewrite E. Qed.

Lemma writer_step_main f st : main (writer_step f st) = main st.
Proof.
  unfold writer_step. destruct (writer st); try reflexivity.
  now destruct (io_Copy (remote_ended st) (stdin st) (file st)) as [[w' src'] [n e]].
Qed.

Lemma writer_step_out_var f st : out_var (writer_step f st) = out_var st.
Proof.
  unfold writer_step. destruct (writer st); try reflexivity.
  now destruct (io_Copy (remote_ended st) (stdin st) (file st)) as [[w' src'] [n e]].
Qed.

Lemma writer_step_remote_ended f st :
  remote_ended (writer_step f st) = remote_ended st.
Proof.
  unfold writer_step. destruct (writer st); try reflexivity.
  now destruct (io_Copy (remote_ended st) (stdin st) (file st)) as [[w' src'] [n e]].
Qed.

Lemma writer_step_err_var f st :
  (forall n e, writer st <> WStore n e) ->
  err_var (writer_step f st) = err_var st.
Proof.
  intros N. unfold writer_step. destruct (writer st) eqn:W; try reflexivity.
  - now destruct (io_Copy (remote_ended st) (stdin st) (file st)) as [[w' src'] [n e]].
  - now destruct (N n e).
Qed.

Lemma writer_step_trace f st : trace (world (writer_step f st)) = trace (world st).
Proof.
  unfold writer_step. destruct (writer st); try reflexivity.
  now destruct (io_Copy (remote_ended st) (stdin st) (file st)) as [[w' src'] [n e]].
Qed.

Lemma writer_step_dialed f st : dialed (world (writer_step f st)) = dialed (world st).
Proof.
  unfold writer_step. destruct (writer st); try reflexivity.
  now destruct (io_Copy (remote_ended st) (stdin st) (file st)) as [[w' src'] [n e]].
Qed.

Lemma writer_step_taking f st :
  channel_inv st ->
  channel_inv (writer_step f st) /\
  (short (stdin st) -> short (stdin (writer_step f st))).
Proof.
  unfold channel_inv. intros HT. unfold writer_step, Fprint, io_Copy, Pipe_Close.
  destruct (writer st); fields; try (now apply Pipe_Write_taking); auto.
  pose proof (copyBuffer_taking (remote_ended st) (unread (file st)) (stdin st)
                (fin (file st)) (reads (file st)) 0 HT) as G.
  destruct (copyBuffer _ _ _ _ _ _) as [[w' src'] [n e]]. fields. exact G.
Qed.

(** *** The main thread's steps *)

Lemma main_step_stdin sess f st : stdin (main_step sess f st) = stdin st.
Proof.
  unfold main_step, Session_CombinedOutput. destruct (main st); try reflexivity.
  - now destruct (remote_ended st).
  - now destruct (writer st).
Qed.

Lemma main_step_writer sess f st : writer (main_step sess f st) = writer st.
Proof.
  unfold main_step, Session_CombinedOutput. destruct (main st); try reflexivity.
  - now destruct (remote_ended st).
  - destruct (writer st) eqn:E; simpl; congruence.
Qed.

Lemma main_step_file sess f st : file (main_step sess f st) = file st.
Proof.
  unfold main_step, Session_CombinedOutput. destruct (main st); try reflexivity.
  - now destruct (remote_ended st).
  - now destruct (writer st).
Qed.

Lemma main_step_copied_var sess f st :
  copied_var (main_step sess f st) = copied_var st.
Proof.
  unfold main_step, Session_CombinedOutput. destruct (main st); try reflexivity.
  - now destruct (remote_ended st).
  - now destruct (writer st).
Qed.

Lemma main_step_remote_ended sess f st :
  remote_ended (main_step sess f st) = remote_ended st.
Proof.
  unfold main_step, Session_CombinedOutput. destruct (main st); try reflexivity.
  - destruct (remote_ended st) eqn:R; [reflexivity | exact R].
  - now destruct (writer st).
Qed.

Lemma writer_inv_ext sess f st st' :
  writer st' = writer st -> stdin st' = stdin st -> file st' = file st ->
  copied_var st' = copied_var st ->
  writer_inv sess f st -> writer_inv sess f st'.
Proof.
  unfold writer_inv, finished_as. now intros -> -> -> ->.
Qed.

(** *** The invariant *)

Lemma Copy_inv_spawn sess f σ : Copy_inv sess f σ (Copy_spawn f σ).
Proof.
  unfold Copy_inv, channel_inv, taking, writer_inv, main_inv, world_inv, Copy_spawn.
  fields. rewrite app_nil_r. repeat split; auto. discriminate.
Qed.

Lemma main_step_inv sess f σ st :
  Copy_inv sess f σ st -> Copy_inv sess f σ (main_step sess f st).
Proof.
  intros (HC & HW & HM & [HD HT] & HE).
  split; [unfold channel_inv; now rewrite main_step_stdin, main_step_remote_ended |].
  split; [eapply writer_inv_ext; [apply main_step_writer | apply main_step_stdin |
                                  apply main_step_file | apply main_step_copied_var |
                                  exact HW] |].
  unfold main_inv, world_inv in *.
  unfold main_step, Session_CombinedOutput, emit.
  destruct (main st) as [| out e | | | | r] eqn:M; fields.
  - unfold scp_remote. split; [auto |]. split; [split; [exact HD |] | exact HE].
    now rewrite HT, app_nil_r.
  - destruct HM as [-> ->].
    destruct (remote_ended st) eqn:R; fields; rewrite ?M.
    + split; [auto |]. split; [now split |]. intros e E. now left.
    + auto.
  - destruct HM as [HO HR].
    destruct (err_var st) as [e |] eqn:V; fields.
    + split; [eauto |]. split; [now split | exact HE].
    + split; [auto |]. split; [now split | exact HE].
  - destruct HM as (HO & HR & e0 & HS). rewrite HO.
    split; [| split; [now split | exact HE]].
    split; [exact HR |]. left. split; [eauto |].
    destruct (err_var st) as [e |] eqn:V; [right | now left].
    exists e. split; [now apply HE | reflexivity].
  - destruct HM as [HO HR].
    destruct (writer st) eqn:W; fields; rewrite ?M; auto 6.
  - rewrite M. auto.
Qed.

Lemma remote_step_inv sess f σ st :
  Copy_inv sess f σ st -> Copy_inv sess f σ (remote_step st).
Proof.
  intros HI. unfold remote_step. destruct (main st) eqn:M; [exact HI | | | | |];
    destruct HI as (HC & HW & HM & [HD HT] & HE);
    (split; [destruct HC as [HP _]; split; [exact HP | discriminate] |];
     split; [eapply writer_inv_ext; [| | | | exact HW]; reflexivity |];
     unfold main_inv, world_inv in *; fields; rewrite M in *;
     split; [| split; [now split | exact HE]]).
  - exact HM.
  - destruct HM as [HO _]. auto.
  - destruct HM as (HO & _ & HS). auto.
  - destruct HM as [HO _]. auto.
  - destruct HM as [_ HM]. auto.
Qed.

Lemma main_inv_writer_step sess f st :
  channel_inv st -> main_inv sess f st -> main_inv sess f (writer_step f st).
Proof.
  intros HC HM. destruct (writer_step_taking f st HC) as [_ HS].
  assert (D : (exists r, writer st = WDone r) \/ forall r, writer st <> WDone r).
  { destruct (writer st); eauto; right; discriminate. }
  destruct D as [[r W] | NW]; [now rewrite (writer_step_done f st r W) |].
  unfold main_inv in *.
  rewrite writer_step_main, writer_step_out_var, writer_step_remote_ended.
  destruct (main st) as [| out e | | | | r]; [exact HM | exact HM | exact HM | | exact HM |].
  - destruct HM as (HO & HR & e & S).
    split; [exact HO |]. split; [exact HR |]. exists e.
    eapply stored_mono; [exact HS | exact S].
  - destruct HM as [HR [[(e & S) HM] | HM]]; [| now destruct (NW r)].
    split; [exact HR |]. left.
    split; [exists e; eapply stored_mono; [exact HS | exact S] |].
    destruct HM as [HM | (e' & S' & HM)]; [now left | right].
    exists e'. split; [eapply stored_mono; [exact HS | exact S'] | exact HM].
Qed.

Lemma world_inv_writer_step sess f σ st :
  world_inv sess f σ st -> world_inv sess f σ (writer_step f st).
Proof.
  unfold world_inv.
  now rewrite writer_step_main, writer_step_trace, writer_step_dialed.
Qed.

(** The step [io.Copy(w, f)]. *)
Lemma writer_copy_step sess f st :
  channel_inv st -> writer st = WCopy -> writer_inv sess f st ->
  writer_inv sess f (writer_step f st).
Proof.
  destruct st as [wd [wb ab cl] rd ev cv ov m wr re].
  unfold channel_inv, taking, writer_inv, copy_outcome, stored, short, writer_step.
  fields. intros [HP HA] -> (-> & -> & -> & NZ).
  destruct re.
  - pose proof (io_Copy_gone f (header_bytes f) ab) as G. cbv zeta in G.
    destruct (io_Copy true _ (open_content f)) as [[w' src'] [n e]]. fields.
    destruct G as (Ha & Hc & Hn & [(Hb & Hw & He) | (c & Hne & Hpc & Hw & He)]).
    + split; [exact Hc |]. split; [exact NZ |]. split.
      * left. rewrite Hw, Hb, app_nil_r, Hn. auto.
      * intros e' E. right. left. congruence.
    + assert (S : length (accepted w') < length (written w')).
      { rewrite Ha, Hw, length_app. apply prefix_length in HP.
        destruct c; [contradiction | cbn [length]; lia]. }
      split; [exact Hc |]. split; [exact NZ |]. split.
      * right. split; [exact S |]. split; [exact Hn |].
        rewrite Hw. now apply prefix_app.
      * intros e' E. right. right. split; [congruence | exact S].
  - rewrite io_Copy_running. fields. split; [reflexivity |]. split; [exact NZ |].
    split.
    + left. auto.
    + intros e' E. right. now left.
Qed.

Lemma writer_step_inv sess f σ st :
  Copy_inv sess f σ st -> Copy_inv sess f σ (writer_step f st).
Proof.
  intros (HC & HW & HM & HWd & HE).
  destruct (writer_step_taking f st HC) as [HC' HS].
  split; [exact HC' |].
  split; [| split; [now apply main_inv_writer_step |
            split; [now apply world_inv_writer_step |]]].
  - destruct (writer st) eqn:W.
    + (* the header *)
      destruct st as [wd [wb ab cl] rd ev cv ov m wr re].
      unfold writer_inv, writer_step in *. fields. subst wr.
      destruct HW as (-> & -> & ->). rewrite Fprint_open.
      destruct (Z.eqb_spec (GetLength f) 0); fields; auto.
    + (* the empty file *)
      destruct st as [wd [wb ab cl] rd ev cv ov m wr re].
      unfold writer_inv, finished_as, writer_step in *. fields. subst wr.
      destruct HW as (-> & -> & -> & HL). rewrite Fprint_open, terminator_byte.
      fields. split; [reflexivity |]. left. auto.
    + (* io.Copy *)
      now apply writer_copy_step.
    + (* the assignment of its results *)
      destruct st as [wd [wb ab cl] rd ev cv ov m wr re].
      unfold writer_inv, writer_step in *. fields. subst wr.
      destruct HW as (Hc & NZ & HO & _).
      split; [exact Hc |]. split; [exact NZ | exact HO].
    + (* if err != nil *)
      destruct st as [wd [wb ab cl] rd ev cv ov m wr re].
      unfold writer_inv, finished_as, writer_step in *. fields.
      subst wr. destruct HW as (-> & NZ & HO).
      destruct ev as [e |]; fields; [| auto].
      split; [reflexivity |]. right. split; [exact NZ |]. right. left.
      split; [exact HO | exists e; split; [now apply HE | reflexivity]].
    + (* if copied != length *)
      destruct st as [wd [wb ab cl] rd ev cv ov m wr re].
      unfold writer_inv, finished_as, copy_outcome, short, writer_step in *. fields.
      subst wr. destruct HW as (-> & NZ & HO).
      destruct (Z.eqb_spec cv (GetLength f)) as [E | NE]; fields.
      * destruct HO as [[Hw Hn] | (_ & Hn & _)]; [auto 6 | congruence].
      * split; [reflexivity |]. right. split; [exact NZ |]. right. right. auto.
    + (* the zero byte *)
      destruct st as [wd [wb ab cl] rd ev cv ov m wr re].
      unfold writer_inv, finished_as, writer_step in *. fields. subst wr.
      destruct HW as (-> & NZ & -> & Hn & Hl). rewrite Fprint_open, terminator_byte.
      fields. split; [reflexivity |]. right. split; [exact NZ |]. left.
      rewrite <- app_assoc. auto.
    + (* the deferred Close *)
      destruct st as [wd [wb ab cl] rd ev cv ov m wr re].
      unfold writer_inv, finished_as, copy_outcome, stored, short, writer_step,
        Pipe_Close in *.
      fields. subst wr. destruct HW as (-> & HF). split; [reflexivity | exact HF].
    + rewrite (writer_step_done f st _ W). exact HW.
  - destruct (writer st) eqn:W;
      try (rewrite writer_step_err_var by (rewrite W; discriminate);
           intros e E; eapply stored_mono; [exact HS | now apply HE]).
    unfold writer_inv in HW. rewrite W in HW. destruct HW as (_ & _ & _ & HV).
    unfold writer_step. rewrite W. fields. exact HV.
Qed.

Lemma Copy_inv_step sess f σ t st :
  Copy_inv sess f σ st -> Copy_inv sess f σ (Copy_step sess f t st).
Proof.
  destruct t; [apply main_step_inv | apply writer_step_inv | apply remote_step_inv].
Qed.

Lemma Copy_inv_run sess f σ sched st :
  Copy_inv sess f σ st -> Copy_inv sess f σ (Copy_run sess f sched st).
Proof.
  revert st. induction sched as [| t sched IH]; intros st HI; simpl; auto.
  apply IH, Copy_inv_step, HI.
Qed.

Lemma Copy_run_app sess f s1 s2 st :
  Copy_run sess f (s1 ++ s2) st = Copy_run sess f s2 (Copy_run sess f s1 st).
Proof. unfold Copy_run. apply fold_left_app. Qed.

(** What a launched run is made of. *)
Lemma Copy_launched sched (c : Client) f σ sess st :
  Copy sched c f σ = Launched sess st ->
  exists ch,
    c (dialed σ) = inr ch /\ StdinPipe_err ch = None /\
    sess = {| sid := dialed σ; chan := ch |} /\
    let σ1 := emit (Opened (dialed σ))
                {| dialed := S (dialed σ); trace := trace σ; log := log σ |} in
    st = Copy_run sess f sched (Copy_spawn f σ1) /\ Copy_inv sess f σ1 st.
Proof.
  unfold Copy, NewSession. destruct (c (dialed σ)) as [e | ch]; [discriminate |].
  cbn [chan]. destruct (StdinPipe_err ch) eqn:E; [discriminate |].
  intros [= <- <-]. exists ch.
  split; [reflexivity |]. split; [exact E |]. split; [reflexivity |].
  split; [reflexivity |]. apply Copy_inv_run, Copy_inv_spawn.
Qed.

(** *** Every run can be continued to its end *)

Lemma writer_step_pc f st :
  writer (writer_step f st) =
  match writer st with
  | WHeader => if (GetLength f =? 0)%Z then WEmpty else WCopy
  | WEmpty => WClose None
  | WCopy =>
      WStore (fst (snd (io_Copy (remote_ended st) (stdin st) (file st))))
             (snd (snd (io_Copy (remote_ended st) (stdin st) (file st))))
  | WStore _ _ => WCheckErr
  | WCheckErr =>
      match err_var st with
      | Some e => WClose (Some (Wrap e "io.Copy"))
      | None => WCheckSize
      end
  | WCheckSize =>
      if (copied_var st =? GetLength f)%Z then WTerminator
      else WClose (Some (size_mismatch f (copied_var st)))
  | WTerminator => WClose None
  | WClose r => WDone r
  | WDone r => WDone r
  end.
Proof.
  unfold writer_step. destruct (writer st) eqn:E; try reflexivity; [| exact E].
  now destruct (io_Copy (remote_ended st) (stdin st) (file st)) as [[w' src'] [n e]].
Qed.

Lemma writer_step_rank f st :
  writer_rank (writer (writer_step f st)) <= pred (writer_rank (writer st)).
Proof.
  rewrite writer_step_pc. destruct (writer st); simpl; try lia.
  - destruct (GetLength f =? 0)%Z; simpl; lia.
  - destruct (err_var st); simpl; lia.
  - destruct (copied_var st =? GetLength f)%Z; simpl; lia.
Qed.

Lemma writer_run_rank sess f n st :
  writer_rank (writer (Copy_run sess f (repeat Writer_task n) st))
  <= writer_rank (writer st) - n.
Proof.
  revert st. induction n as [| n IH]; intros st; simpl; [lia |].
  etransitivity; [apply IH |].
  pose proof (writer_step_rank f st). lia.
Qed.

Lemma writer_run_remote_ended sess f n st :
  remote_ended (Copy_run sess f (repeat Writer_task n) st) = remote_ended st.
Proof.
  revert st. induction n as [| n IH]; intros st; simpl; [reflexivity |].
  etransitivity; [apply IH | apply writer_step_remote_ended].
Qed.

Lemma writer_run_ends sess f st :
  exists r, writer (Copy_run sess f (repeat Writer_task 7) st) = WDone r.
Proof.
  pose proof (writer_run_rank sess f 7 st) as R.
  destruct (writer (Copy_run sess f (repeat Writer_task 7) st)) eqn:E; simpl in R;
    try (destruct (writer st); simpl in R; lia).
  eauto.
Qed.

Lemma main_step_started sess f st : main (main_step sess f st) <> AtCombinedOutput.
Proof.
  unfold main_step, Session_CombinedOutput.
  destruct (main st) eqn:M; cbn [main]; try discriminate.
  - destruct (remote_ended st); cbn [main]; rewrite ?M; discriminate.
  - destruct (err_var st); discriminate.
  - destruct (writer st); cbn [main]; rewrite ?M; discriminate.
  - rewrite M. discriminate.
Qed.

Lemma remote_step_main st : main (remote_step st) = main st.
Proof. unfold remote_step. now destruct (main st) eqn:M. Qed.

Lemma remote_step_writer st : writer (remote_step st) = writer st.
Proof. unfold remote_step. now destruct (main st). Qed.

Lemma remote_step_stdin st : stdin (remote_step st) = stdin st.
Proof. unfold remote_step. now destruct (main st). Qed.

Lemma remote_step_ended st :
  main st <> AtCombinedOutput -> remote_ended (remote_step st) = true.
Proof. unfold remote_step. now destruct (main st). Qed.

Lemma main_step_rank sess f st r :
  writer st = WDone r -> remote_ended st = true ->
  main_rank (main (main_step sess f st)) <= pred (main_rank (main st)).
Proof.
  intros E R. unfold main_step, Session_CombinedOutput.
  destruct (main st) eqn:M; cbn [main main_rank pred].
  - lia.
  - rewrite R. simpl. lia.
  - destruct (err_var st); simpl; lia.
  - lia.
  - rewrite E. simpl. lia.
  - rewrite M. simpl. lia.
Qed.

Lemma main_run_rank sess f n st r :
  writer st = WDone r -> remote_ended st = true ->
  main_rank (main (Copy_run sess f (repeat Main n) st)) <= main_rank (main st) - n.
Proof.
  revert st. induction n as [| n IH]; intros st E R; simpl; [lia |].
  etransitivity;
    [apply IH; [now rewrite main_step_writer | now rewrite main_step_remote_ended] |].
  pose proof (main_step_rank sess f st r E R). lia.
Qed.

Lemma main_run_writer sess f n st :
  writer (Copy_run sess f (repeat Main n) st) = writer st.
Proof.
  revert st. induction n as [| n IH]; intros st; simpl; [reflexivity |].
  etransitivity; [apply IH | apply main_step_writer].
Qed.

Lemma main_run_stdin sess f n st :
  stdin (Copy_run sess f (repeat Main n) st) = stdin st.
Proof.
  revert st. induction n as [| n IH]; intros st; simpl; [reflexivity |].
  etransitivity; [apply IH | apply main_step_stdin].
Qed.

Lemma main_run_file sess f n st :
  file (Copy_run sess f (repeat Main n) st) = file st.
Proof.
  revert st. induction n as [| n IH]; intros st; simpl; [reflexivity |].
  etransitivity; [apply IH | apply main_step_file].
Qed.

Lemma remote_step_file st : file (remote_step st) = file st.
Proof. unfold remote_step. now destruct (main st). Qed.

(** Once the writer has ended, [Copy] starts the command, the command
    ends, and [Copy] returns. *)
Lemma main_finishes sess f st r :
  writer st = WDone r ->
  exists r',
    main (Copy_run sess f ([Main; Remote_end] ++ repeat Main 3) st) = Returned r' /\
    writer (Copy_run sess f ([Main; Remote_end] ++ repeat Main 3) st) = WDone r /\
    stdin (Copy_run sess f ([Main; Remote_end] ++ repeat Main 3) st) = stdin st /\
    file (Copy_run sess f ([Main; Remote_end] ++ repeat Main 3) st) = file st.
Proof.
  intros W. rewrite Copy_run_app.
  change (Copy_run sess f [Main; Remote_end] st)
    with (remote_step (main_step sess f st)).
  set (st2 := remote_step (main_step sess f st)).
  assert (W2 : writer st2 = WDone r).
  { unfold st2. now rewrite remote_step_writer, main_step_writer. }
  assert (M2 : main st2 <> AtCombinedOutput).
  { unfold st2. rewrite remote_step_main. apply main_step_started. }
  assert (R2 : remote_ended st2 = true).
  { unfold st2. apply remote_step_ended, main_step_started. }
  pose proof (main_run_rank sess f 3 st2 r W2 R2) as R.
  rewrite main_run_writer, main_run_stdin, main_run_file.
  assert (E : exists r', main (Copy_run sess f (repeat Main 3) st2) = Returned r').
  { destruct (main (Copy_run sess f (repeat Main 3) st2)) eqn:E; simpl in R;
      try (destruct (main st2); simpl in R; try lia; contradiction).
    eauto. }
  destruct E as [r' E]. exists r'.
  split; [exact E |]. split; [exact W2 |].
  unfold st2. now rewrite remote_step_stdin, main_step_stdin, remote_step_file,
    main_step_file.
Qed.

(** [Copy] can always come to an end: from whatever point a run has
    reached, seven more steps of the writer, the end of the remote command
    and four steps of [Copy] itself end both. *)
Lemma Copy_returns sess f st :
  exists r r', writer (Copy_run sess f to_the_end st) = WDone r /\
               main (Copy_run sess f to_the_end st) = Returned r' /\
               stdin (Copy_run sess f to_the_end st) =
                 stdin (Copy_run sess f (repeat Writer_task 7) st) /\
               file (Copy_run sess f to_the_end st) =
                 file (Copy_run sess f (repeat Writer_task 7) st).
Proof.
  unfold to_the_end. rewrite Copy_run_app.
  destruct (writer_run_ends sess f st) as [r W].
  destruct (main_finishes sess f _ r W) as (r' & M & W' & S & F).
  exists r, r'. auto.
Qed.


(** *** Runs in which the channel took every write *)

Lemma stored_clean sess f (w : Pipe) e :
  accepted w = written w -> stored sess f w e ->
  wait_error (outcome (scp_remote sess f)) = Some e \/ copy_error f = Some e.
Proof.
  intros A [S | [S | [_ S]]]; auto. unfold short in S. rewrite A in S. lia.
Qed.

Lemma copy_outcome_clean f (w : Pipe) n :
  accepted w = written w -> copy_outcome f w n ->
  written w = header_bytes f ++ body f /\ n = Z.of_nat (length (body f)).
Proof.
  intros A [HO | (S & _)]; [exact HO |]. unfold short in S. rewrite A in S. lia.
Qed.







(** ** Sessions *)

Lemma teeSSH_world sched s cmd outB errB h σ :
  dialed (snd (fst (teeSSH sched s cmd outB errB h σ))) = dialed σ /\
  trace (snd (fst (teeSSH sched s cmd outB errB h σ))) =
    trace σ ++ (if pipes_ok (chan s) then [Started (sid s) cmd] else []).
Proof.
  unfold teeSSH, pipes_ok.
  destruct (StdoutPipe_err (chan s)); [simpl; now rewrite app_nil_r |].
  destruct (StderrPipe_err (chan s)); [simpl; now rewrite app_nil_r |].
  unfold Session_Run.
  destruct (perform_all _ _) as [h' σ'] eqn:E.
  apply (f_equal snd) in E. rewrite perform_all_world in E. simpl in E.
  subst σ'. simpl. auto.
Qed.

(** [teeSSH] does not look at what [Close] will answer. *)
Lemma teeSSH_before_Close sched n ch e cmd outB errB h σ :
  teeSSH sched {| sid := n; chan := with_Close_err e ch |} cmd outB errB h σ =
  teeSSH sched {| sid := n; chan := ch |} cmd outB errB h σ.
Proof. reflexivity. Qed.

Lemma closing_cleanly_here (c : Client) n ch :
  c n = inr ch -> closing_cleanly c n n = inr (with_Close_err None ch).
Proof. intros E. unfold closing_cleanly. now rewrite Nat.eqb_refl, E. Qed.

Lemma Run_lifecycle sched (c : Client) cmd σ ch :
  c (dialed σ) = inr ch ->
  opened_and_closed σ (fst (Run sched c cmd σ)) (if pipes_ok ch then [cmd] else []) /\
  snd (Run sched c cmd σ) = snd (Run sched (closing_cleanly c (dialed σ)) cmd σ) /\
  log (fst (Run sched c cmd σ)) =
    log (fst (Run sched (closing_cleanly c (dialed σ)) cmd σ)) ++
    match Close_err ch with
    | Some e => if is_EOF e then [] else [(ERROR, "session close: " +:+ Error e)]
    | None => []
    end.
Proof.
  intros Hc. unfold Run, NewSession. cbn [glog dialed trace log].
  rewrite (closing_cleanly_here _ _ _ Hc), Hc.
  rewrite teeSSH_before_Close.
  set (sess := {| sid := dialed σ; chan := ch |}).
  set (σ1 := emit _ _).
  pose proof (teeSSH_world sched sess cmd 0 1 (<[1:=[]]> (<[0:=[]]> ∅)) σ1) as [HD HT].
  destruct (teeSSH sched sess cmd 0 1 _ σ1) as [[h' σ2] err].
  cbn [fst snd] in *. unfold close_logging, Session_Close, opened_and_closed.
  cbn [chan sid sess with_Close_err Close_err fst snd].
  split; [| split; [reflexivity |]].
  - assert (G : dialed (emit (Closed (dialed σ)) σ2) = S (dialed σ) /\
                trace (emit (Closed (dialed σ)) σ2) =
                trace σ ++ Opened (dialed σ) ::
                  map (Started (dialed σ)) (if pipes_ok ch then [cmd] else []) ++
                  [Closed (dialed σ)]).
    { unfold emit. cbn [dialed trace]. rewrite HD, HT. subst σ1 sess.
      unfold emit. cbn [dialed trace chan sid]. split; [reflexivity |].
      rewrite <- !app_assoc. simpl. now destruct (pipes_ok ch). }
    destruct (Close_err ch) as [e |]; [destruct (is_EOF e) |]; exact G.
  - destruct (Close_err ch) as [e |]; [destruct (is_EOF e) |];
      unfold glog, emit; cbn [log]; now rewrite ?app_nil_r.
Qed.

Lemma CombinedOutput_lifecycle sched (c : Client) cmd σ ch :
  c (dialed σ) = inr ch ->
  opened_and_closed σ (fst (CombinedOutput sched c cmd σ))
                    (if pipes_ok ch then [cmd] else []) /\
  CombinedOutput sched c cmd σ =
    CombinedOutput sched (closing_cleanly c (dialed σ)) cmd σ.
Proof.
  intros Hc. unfold CombinedOutput, NewSession. cbn [glog dialed trace log].
  rewrite (closing_cleanly_here _ _ _ Hc), Hc.
  rewrite teeSSH_before_Close.
  set (sess := {| sid := dialed σ; chan := ch |}).
  set (σ1 := emit _ _).
  pose proof (teeSSH_world sched sess cmd 0 0 (<[0:=[]]> ∅) σ1) as [HD HT].
  destruct (teeSSH sched sess cmd 0 0 _ σ1) as [[h' σ2] err].
  cbn [fst snd] in *. unfold close_silently, Session_Close, opened_and_closed.
  cbn [chan sid sess fst snd]. split; [| reflexivity].
  unfold emit. cbn [dialed trace]. rewrite HD, HT. subst σ1 sess.
  unfold emit. cbn [dialed trace chan sid]. split; [reflexivity |].
  rewrite <- !app_assoc. simpl. now destruct (pipes_ok ch).
Qed.

Lemma Remove_lifecycle (c : Client) f σ ch :
  c (dialed σ) = inr ch ->
  opened_and_closed σ (fst (Remove c f σ)) [getDeleteFileCommand f] /\
  Remove c f σ = Remove (closing_cleanly c (dialed σ)) f σ.
Proof.
  intros Hc. unfold Remove, NewSession.
  rewrite (closing_cleanly_here _ _ _ Hc), Hc.
  unfold Session_Run, close_silently, Session_Close, opened_and_closed, emit.
  cbn [chan sid fst snd dialed trace with_Close_err exec].
  split; [| reflexivity]. split; [reflexivity |].
  now rewrite <- !app_assoc.
Qed.

Lemma Copy_opens_once sched (c : Client) f σ ch :
  c (dialed σ) = inr ch -> opened_once σ (Copy_world (Copy sched c f σ)).
Proof.
  intros Hc. destruct (Copy sched c f σ) as [σ1 e | sess st] eqn:E.
  - unfold Copy, NewSession in E. rewrite Hc in E. cbn [chan] in E.
    destruct (StdinPipe_err ch); [| discriminate].
    injection E as <- _. unfold opened_once, Copy_world, emit. cbn [dialed trace].
    split; [reflexivity |]. exists []. split; [reflexivity | auto].
  - destruct (Copy_launched _ _ _ _ _ _ E) as (ch' & _ & _ & -> & _ & HI).
    destruct HI as (_ & _ & _ & [HD HT] & _).
    unfold opened_once, Copy_world. rewrite HD, HT. unfold emit. cbn [dialed trace].
    split; [reflexivity |]. rewrite <- app_assoc. simpl.
    eexists. split; [reflexivity |].
    intros id. destruct (main st); simpl; intuition discriminate.
Qed.

(** C6 (as amended): every call of [Run], [CombinedOutput],
    [CombinedOutputTo] and [Remove] that obtains its session opens exactly
    that one session, starts its command on it and closes it once; the
    close is the last thing the call does on the transport.
    [CombinedOutputTo] leaves the transport as its call of
    [CombinedOutput] has left it, with the session closed, and hands the
    text which that call has returned to its destination.  [Copy] opens
    exactly one session as well.  What [Close] answers is never returned:
    [Run] writes it to the error log unless it is end of stream, and the
    other three calls drop it, so that they behave as if [Close] had
    answered nil. *)
Theorem session_lifecycle (c : Client) σ ch :
  c (dialed σ) = inr ch ->
  (forall sched cmd,
     opened_and_closed σ (fst (Run sched c cmd σ)) (if pipes_ok ch then [cmd] else []) /\
     snd (Run sched c cmd σ) = snd (Run sched (closing_cleanly c (dialed σ)) cmd σ) /\
     log (fst (Run sched c cmd σ)) =
       log (fst (Run sched (closing_cleanly c (dialed σ)) cmd σ)) ++
       match Close_err ch with
       | Some e => if is_EOF e then [] else [(ERROR, "session close: " +:+ Error e)]
       | None => []
       end) /\
  (forall sched cmd,
     opened_and_closed σ (fst (CombinedOutput sched c cmd σ))
                       (if pipes_ok ch then [cmd] else []) /\
     CombinedOutput sched c cmd σ =
       CombinedOutput sched (closing_cleanly c (dialed σ)) cmd σ) /\
  (forall sched cmd w,
     opened_and_closed σ (fst (fst (CombinedOutputTo sched c cmd w σ)))
                       (if pipes_ok ch then [cmd] else []) /\
     fst (fst (CombinedOutputTo sched c cmd w σ)) =
       fst (CombinedOutput sched c cmd σ) /\
     (snd (snd (CombinedOutput sched c cmd σ)) = None ->
      received (snd (fst (CombinedOutputTo sched c cmd w σ))) =
        received w ++
        [list_byte_of_string (fst (snd (CombinedOutput sched c cmd σ)))]) /\
     CombinedOutputTo sched c cmd w σ =
       CombinedOutputTo sched (closing_cleanly c (dialed σ)) cmd w σ) /\
  (forall f,
     opened_and_closed σ (fst (Remove c f σ)) [getDeleteFileCommand f] /\
     Remove c f σ = Remove (closing_cleanly c (dialed σ)) f σ) /\
  (forall sched f, opened_once σ (Copy_world (Copy sched c f σ))).
Proof.
  intros Hc. split; [| split; [| split; [| split]]].
  - intros sched cmd. exact (Run_lifecycle sched c cmd σ ch Hc).
  - intros sched cmd. exact (CombinedOutput_lifecycle sched c cmd σ ch Hc).
  - intros sched cmd w.
    destruct (CombinedOutput_lifecycle sched c cmd σ ch Hc) as [HO HE].
    unfold CombinedOutputTo. rewrite <- HE.
    destruct (CombinedOutput sched c cmd σ) as [σ' [out [e |]]];
      cbn [fst snd] in *; [split; [exact HO |]; split; [reflexivity |];
                           split; [discriminate | reflexivity] |].
    unfold Writer_Write. cbn [fst snd received]. auto.
  - intros f. exact (Remove_lifecycle c f σ ch Hc).
  - intros sched f. exact (Copy_opens_once sched c f σ ch Hc).
Qed.

(** Whatever the file, when the remote command fails before the writer
    is scheduled, [Copy] has returned while the writer has not started:
    the failure branch does not join the errgroup. *)
Lemma Copy_failure_not_joined (c : Client) f σ ch e :
  c (dialed σ) = inr ch -> StdinPipe_err ch = None ->
  wait_error (outcome (exec ch (scp_command f))) = Some e ->
  exists sess st,
    Copy [Main; Remote_end; Main; Main; Main] c f σ = Launched sess st /\
    main st = Returned (Some (scp_failure f e (collected (exec ch (scp_command f))))) /\
    writer st = WHeader /\ written (stdin st) = [] /\ closed (stdin st) = false.
Proof.
  intros Hc Hp He. unfold Copy, NewSession. rewrite Hc. cbn [chan]. rewrite Hp.
  eexists _, _. split; [reflexivity |].
  unfold Copy_run, Copy_spawn.
  cbn [fold_left Copy_step main_step remote_step Session_CombinedOutput
       chan world stdin file err_var copied_var out_var main writer
       remote_ended].
  rewrite He.
  cbn [main_step main err_var out_var writer stdin written closed remote_ended].
  auto.
Qed.

End RunnerFacts.

(** * Further properties of the runner *)

Lemma string_of_list_byte_length (l : bytes) :
  String.length (string_of_list_byte l) = length l.
Proof.
  unfold string_of_list_byte.
  induction l as [| x l IH]; simpl; [reflexivity | now rewrite IH].
Qed.

(** ** The header line *)

Lemma string_length_app (s t : string) :
  String.length (s +:+ t) = String.length s + String.length t.
Proof. induction s as [| a s IH]; simpl; [reflexivity | now rewrite IH]. Qed.

Lemma string_app_inv_tail (s1 s2 t : string) : s1 +:+ t = s2 +:+ t -> s1 = s2.
Proof.
  revert s2. induction s1 as [| a s1 IH]; intros [| b s2] E.
  - reflexivity.
  - apply (f_equal String.length) in E. rewrite ?string_length_app in E.
    simpl in E. rewrite ?string_length_app in E. lia.
  - apply (f_equal String.length) in E. rewrite ?string_length_app in E.
    simpl in E. rewrite ?string_length_app in E. lia.
  - simpl in E. injection E as -> E. f_equal. now apply IH.
Qed.

(** Two texts that agree up to and after the first [a] have the same
    part before it and the same part after it. *)
Lemma split_at_first (a : ascii) (p1 p2 r1 r2 : string) :
  occurs a p1 = false -> occurs a p2 = false ->
  p1 +:+ String a r1 = p2 +:+ String a r2 -> p1 = p2 /\ r1 = r2.
Proof.
  revert p2. induction p1 as [| x p1 IH]; intros [| y p2] O1 O2 E; simpl in *.
  - injection E as E. auto.
  - injection E as <- E. rewrite Ascii.eqb_refl in O2. discriminate.
  - injection E as -> E. rewrite Ascii.eqb_refl in O1. discriminate.
  - injection E as -> E.
    destruct (Ascii.eqb a y); [discriminate |].
    destruct (IH p2 O1 O2 E) as [-> ->]. auto.
Qed.

Lemma pretty_N_char_no_space x : Ascii.eqb " " (pretty_N_char x) = false.
Proof. unfold pretty_N_char. repeat case_match; reflexivity. Qed.

Lemma pretty_N_go_no_space (x : N) (s : string) :
  occurs " " s = false -> occurs " " (pretty_N_go x s) = false.
Proof.
  revert s. induction (N.lt_wf_0 x) as [x _ IH]; intros s Hs.
  destruct (decide (x = 0)%N) as [-> | Hx].
  - now rewrite pretty_N_go_0.
  - rewrite pretty_N_go_step by lia.
    apply IH; [apply N.div_lt; lia |].
    cbn [occurs]. now rewrite pretty_N_char_no_space.
Qed.

(** The decimal text of an integer holds no space. *)
Lemma pretty_Z_no_space (z : Z) : occurs " " (pretty z) = false.
Proof.
  destruct z as [| p | p]; [reflexivity | |].
  - unfold pretty, pretty_Z, pretty, pretty_positive, pretty, pretty_N.
    case_decide; [reflexivity |]. now apply pretty_N_go_no_space.
  - unfold pretty, pretty_Z. simpl.
    unfold pretty, pretty_positive, pretty, pretty_N.
    case_decide; [reflexivity |]. now apply pretty_N_go_no_space.
Qed.

(** X16: the header line can be read back: when the permission texts hold no
    space, two files with the same header line have the same
    permissions, the same declared length and the same target name. *)
Theorem scp_header_unambiguous (f g : CopyableFile) :
  occurs " " (GetPermissions f) = false ->
  occurs " " (GetPermissions g) = false ->
  scp_header f = scp_header g ->
  GetPermissions f = GetPermissions g /\
  GetLength f = GetLength g /\
  GetTargetName f = GetTargetName g.
Proof.
  intros Pf Pg E. unfold scp_header in E.
  change ("C" +:+ ?x) with (String "C" x) in E.
  injection E as E.
  change (" " +:+ ?x) with (String " " x) in E.
  apply split_at_first in E; [| assumption | assumption].
  destruct E as [EP E]. split; [exact EP |].
  apply split_at_first in E; [| apply pretty_Z_no_space | apply pretty_Z_no_space].
  destruct E as [EL EN]. split.
  - now apply (inj pretty).
  - now apply string_app_inv_tail in EN.
Qed.

Section RunnerMore.
Context `{Imports}.

(** ** Where the tees put the output *)

(** X4: with two different capture buffers, [teeSSH] appends to each exactly
    the chunks of its own stream, in order, whatever the interleaving,
    and leaves every other buffer as it was. *)
Theorem teeSSH_separate_sinks sched s cmd outB errB (h : Heap) σ :
  StdoutPipe_err (chan s) = None -> StderrPipe_err (chan s) = None ->
  outB <> errB ->
  fst (fst (teeSSH sched s cmd outB errB h σ)) !! outB =
    (fun buf => buf ++ concat (chunks (stdout (exec (chan s) cmd)))) <$> (h !! outB) /\
  fst (fst (teeSSH sched s cmd outB errB h σ)) !! errB =
    (fun buf => buf ++ concat (chunks (stderr (exec (chan s) cmd)))) <$> (h !! errB) /\
  (forall w, w <> outB -> w <> errB ->
     fst (fst (teeSSH sched s cmd outB errB h σ)) !! w = h !! w).
Proof.
  intros Ho He Hne.
  destruct (teeSSH_ok sched s cmd outB errB h σ Ho He) as (acts & HS & ->).
  cbn [fst snd]. rewrite !perform_all_heap.
  assert (A : forall w, Shuffle
              (if Nat.eqb w errB then chunks (stderr (exec (chan s) cmd)) else [])
              (if Nat.eqb w outB then chunks (stdout (exec (chan s) cmd)) else [])
              (appends w acts)).
  { intros w. pose proof (Shuffle_appends w _ _ _ HS) as HA.
    now rewrite !appends_tee_task in HA. }
  split; [| split].
  - specialize (A outB). rewrite Nat.eqb_refl in A.
    destruct (Nat.eqb_spec outB errB); [contradiction |].
    apply Shuffle_nil_l_inv in A. now rewrite A.
  - specialize (A errB). rewrite Nat.eqb_refl in A.
    destruct (Nat.eqb_spec errB outB); [congruence |].
    apply Shuffle_nil_r_inv in A. now rewrite A.
  - intros w N1 N2. rewrite perform_all_heap. specialize (A w).
    destruct (Nat.eqb_spec w errB); [contradiction |].
    destruct (Nat.eqb_spec w outB); [contradiction |].
    apply Shuffle_nil_l_inv in A. rewrite A. simpl.
    destruct (h !! w); simpl; [now rewrite app_nil_r | reflexivity].
Qed.

(** With one capture buffer for both streams, [teeSSH] appends to it a
    merge of the chunks of the two streams. *)
Lemma teeSSH_shared_sink sched s cmd w (h : Heap) σ :
  StdoutPipe_err (chan s) = None -> StderrPipe_err (chan s) = None ->
  exists merged,
    Shuffle (chunks (stderr (exec (chan s) cmd)))
            (chunks (stdout (exec (chan s) cmd))) merged /\
    fst (fst (teeSSH sched s cmd w w h σ)) !! w =
      (fun buf => buf ++ concat merged) <$> (h !! w).
Proof.
  intros Ho He.
  destruct (teeSSH_ok sched s cmd w w h σ Ho He) as (acts & HS & ->).
  cbn [fst snd]. exists (appends w acts). split.
  - pose proof (Shuffle_appends w _ _ _ HS) as HA.
    now rewrite !appends_tee_task, Nat.eqb_refl in HA.
  - apply perform_all_heap.
Qed.

Lemma teeSSH_result sched s cmd outB errB h σ :
  StdoutPipe_err (chan s) = None -> StderrPipe_err (chan s) = None ->
  snd (teeSSH sched s cmd outB errB h σ) = wait_error (outcome (exec (chan s) cmd)).
Proof.
  intros Ho He.
  now destruct (teeSSH_ok sched s cmd outB errB h σ Ho He) as (acts & HS & ->).
Qed.

(** What [Run] returns when it has its session and both pipes. *)
Lemma Run_result sched (c : Client) cmd σ ch :
  c (dialed σ) = inr ch ->
  StdoutPipe_err ch = None -> StderrPipe_err ch = None ->
  snd (Run sched c cmd σ) =
    match wait_error (outcome (exec ch cmd)) with
    | Some e =>
        Some (Wrap e
          ("command failed: " +:+ cmd +:+ nl +:+
           "stdout: " +:+
           string_of_list_byte (concat (chunks (stdout (exec ch cmd)))) +:+ nl +:+
           "stderr: " +:+
           string_of_list_byte (concat (chunks (stderr (exec ch cmd))))))
    | None => None
    end.
Proof.
  intros Hc Ho He. unfold Run, NewSession. cbn [glog dialed]. rewrite Hc.
  set (sess := {| sid := dialed σ; chan := ch |}).
  set (σ1 := emit _ _).
  set (h := <[1 := []]> (<[0 := []]> (∅ : Heap))).
  pose proof (teeSSH_separate_sinks sched sess cmd 0 1 h σ1 Ho He) as S.
  destruct S as (S0 & S1 & _); [discriminate |].
  pose proof (teeSSH_result sched sess cmd 0 1 h σ1 Ho He) as R.
  destruct (teeSSH sched sess cmd 0 1 h σ1) as [[h' σ2] err].
  cbn [fst snd] in *. subst err.
  unfold Buffer_String, contents. rewrite S0, S1. reflexivity.
Qed.

Lemma teeSSH_pipe_failure sched s cmd outB errB h σ e tag :
  (StdoutPipe_err (chan s) = Some e /\ tag = "stdout") \/
  (StdoutPipe_err (chan s) = None /\ StderrPipe_err (chan s) = Some e /\
   tag = "stderr") ->
  teeSSH sched s cmd outB errB h σ = (h, σ, Some (Wrap e tag)).
Proof.
  unfold teeSSH. intros [(-> & ->) | (-> & -> & ->)]; reflexivity.
Qed.

(** X5: the value [Run] returns, and the sessions and commands it leaves in
    the trace, do not depend on how the two tees and the command wait
    interleave. *)
Theorem Run_result_schedule_independent sched1 sched2 (c : Client) cmd σ :
  snd (Run sched1 c cmd σ) = snd (Run sched2 c cmd σ) /\
  trace (fst (Run sched1 c cmd σ)) = trace (fst (Run sched2 c cmd σ)) /\
  dialed (fst (Run sched1 c cmd σ)) = dialed (fst (Run sched2 c cmd σ)).
Proof.
  destruct (c (dialed σ)) as [e | ch] eqn:Hc.
  - unfold Run, NewSession. cbn [glog dialed]. rewrite Hc. auto.
  - destruct (Run_lifecycle sched1 c cmd σ ch Hc) as ((D1 & T1) & _).
    destruct (Run_lifecycle sched2 c cmd σ ch Hc) as ((D2 & T2) & _).
    split; [| split; congruence].
    destruct (StdoutPipe_err ch) as [eo |] eqn:Ho.
    + unfold Run, NewSession. cbn [glog dialed]. rewrite Hc.
      rewrite !(teeSSH_pipe_failure _ _ _ _ _ _ _ eo "stdout"); auto.
    + destruct (StderrPipe_err ch) as [ee |] eqn:He.
      * unfold Run, NewSession. cbn [glog dialed]. rewrite Hc.
        rewrite !(teeSSH_pipe_failure _ _ _ _ _ _ _ ee "stderr"); auto.
      * now rewrite !(Run_result _ c cmd σ ch Hc Ho He).
Qed.

(** What [CombinedOutput] returns when it has its session and both pipes. *)
Lemma CombinedOutput_text sched (c : Client) cmd σ ch :
  c (dialed σ) = inr ch ->
  StdoutPipe_err ch = None -> StderrPipe_err ch = None ->
  exists merged,
    Shuffle (chunks (stderr (exec ch cmd))) (chunks (stdout (exec ch cmd))) merged /\
    fst (snd (CombinedOutput sched c cmd σ)) = string_of_list_byte (concat merged).
Proof.
  intros Hc Ho He. unfold CombinedOutput, NewSession. cbn [glog dialed]. rewrite Hc.
  set (sess := {| sid := dialed σ; chan := ch |}).
  set (σ1 := emit _ _).
  set (h := <[0 := []]> (∅ : Heap)).
  destruct (teeSSH_shared_sink sched sess cmd 0 h σ1 Ho He) as (merged & HS & HL).
  destruct (teeSSH sched sess cmd 0 0 h σ1) as [[h' σ2] err].
  cbn [fst snd] in *. exists merged. split; [exact HS |].
  unfold Buffer_String, contents. rewrite HL. reflexivity.
Qed.

(** X6: no byte is lost or duplicated in the combined capture: the text
    [CombinedOutput] returns is as long as the two streams together,
    under every interleaving. *)
Theorem CombinedOutput_keeps_every_byte sched (c : Client) cmd σ ch :
  c (dialed σ) = inr ch ->
  StdoutPipe_err ch = None -> StderrPipe_err ch = None ->
  String.length (fst (snd (CombinedOutput sched c cmd σ))) =
    length (concat (chunks (stdout (exec ch cmd)))) +
    length (concat (chunks (stderr (exec ch cmd)))).
Proof.
  intros Hc Ho He.
  destruct (CombinedOutput_text sched c cmd σ ch Hc Ho He) as (merged & HS & ->).
  rewrite string_of_list_byte_length, (Shuffle_concat_length _ _ _ HS). lia.
Qed.

(** X7: when the command writes nothing to one of its two streams, the
    combined text is the other stream, whatever the interleaving. *)
Theorem CombinedOutput_single_stream sched (c : Client) cmd σ ch :
  c (dialed σ) = inr ch ->
  StdoutPipe_err ch = None -> StderrPipe_err ch = None ->
  (chunks (stderr (exec ch cmd)) = [] ->
   fst (snd (CombinedOutput sched c cmd σ)) =
     string_of_list_byte (concat (chunks (stdout (exec ch cmd))))) /\
  (chunks (stdout (exec ch cmd)) = [] ->
   fst (snd (CombinedOutput sched c cmd σ)) =
     string_of_list_byte (concat (chunks (stderr (exec ch cmd))))).
Proof.
  intros Hc Ho He.
  destruct (CombinedOutput_text sched c cmd σ ch Hc Ho He) as (merged & HS & ->).
  split; intros E; rewrite E in HS.
  - now rewrite (Shuffle_nil_l_inv _ _ HS).
  - now rewrite (Shuffle_nil_r_inv _ _ HS).
Qed.

(** ** Failures before the command runs *)

(** X1: when the client refuses the session, each operation returns that
    error under its own tag and touches nothing: no session is opened,
    no command started, nothing closed, [CombinedOutput] returns the
    empty text, the destination of [CombinedOutputTo] receives nothing
    and [Copy] starts no writer. *)
Theorem NewSession_failure_is_returned sched (c : Client) σ e :
  c (dialed σ) = inl e ->
  (forall cmd,
     snd (Run sched c cmd σ) = Some (Wrap e "NewSession") /\
     trace (fst (Run sched c cmd σ)) = trace σ) /\
  (forall cmd,
     snd (CombinedOutput sched c cmd σ) = (EmptyString, Some (Wrap e "NewSession")) /\
     trace (fst (CombinedOutput sched c cmd σ)) = trace σ) /\
  (forall cmd w,
     snd (CombinedOutputTo sched c cmd w σ) = Some (Wrap e "NewSession") /\
     snd (fst (CombinedOutputTo sched c cmd w σ)) = w /\
     trace (fst (fst (CombinedOutputTo sched c cmd w σ))) = trace σ) /\
  (forall f,
     snd (Remove c f σ) = Some (Wrap e "getting ssh session") /\
     trace (fst (Remove c f σ)) = trace σ /\
     log (fst (Remove c f σ)) = log σ) /\
  (forall threads f,
     Copy threads c f σ =
       Refused {| dialed := S (dialed σ); trace := trace σ; log := log σ |}
               (Wrap e "NewSession")).
Proof.
  intros Hc. split; [| split; [| split; [| split]]].
  - intros cmd. unfold Run, NewSession. cbn [glog dialed]. now rewrite Hc.
  - intros cmd. unfold CombinedOutput, NewSession. cbn [glog dialed]. now rewrite Hc.
  - intros cmd w. unfold CombinedOutputTo, CombinedOutput, NewSession.
    cbn [glog dialed]. now rewrite Hc.
  - intros f. unfold Remove, NewSession. now rewrite Hc.
  - intros threads f. unfold Copy, NewSession. now rewrite Hc.
Qed.

(** X2: when a pipe cannot be obtained, the command is never started and the
    session is still closed.  The stdout pipe is asked first, so its
    error wins.  [Run] wraps the pipe error as a failed command with
    empty captures; [CombinedOutput] returns it with the empty text. *)
Theorem pipe_failure_is_returned sched (c : Client) cmd σ ch e tag :
  c (dialed σ) = inr ch ->
  (StdoutPipe_err ch = Some e /\ tag = "stdout") \/
  (StdoutPipe_err ch = None /\ StderrPipe_err ch = Some e /\ tag = "stderr") ->
  snd (Run sched c cmd σ) =
    Some (Wrap (Wrap e tag)
            ("command failed: " +:+ cmd +:+ nl +:+ "stdout: " +:+ nl +:+ "stderr: ")) /\
  trace (fst (Run sched c cmd σ)) =
    trace σ ++ [Opened (dialed σ); Closed (dialed σ)] /\
  snd (CombinedOutput sched c cmd σ) = (EmptyString, Some (Wrap e tag)) /\
  trace (fst (CombinedOutput sched c cmd σ)) =
    trace σ ++ [Opened (dialed σ); Closed (dialed σ)].
Proof.
  intros Hc Hp.
  assert (NP : pipes_ok ch = false).
  { unfold pipes_ok. destruct Hp as [(-> & _) | (-> & -> & _)]; reflexivity. }
  destruct (Run_lifecycle sched c cmd σ ch Hc) as ((_ & TR) & _).
  destruct (CombinedOutput_lifecycle sched c cmd σ ch Hc) as ((_ & TC) & _).
  rewrite NP in TR, TC. simpl in TR, TC.
  split; [| split; [exact TR | split; [| exact TC]]].
  - unfold Run, NewSession. cbn [glog dialed]. rewrite Hc.
    rewrite (teeSSH_pipe_failure _ _ _ _ _ _ _ e tag) by exact Hp. reflexivity.
  - unfold CombinedOutput, NewSession. cbn [glog dialed]. rewrite Hc.
    rewrite (teeSSH_pipe_failure _ _ _ _ _ _ _ e tag) by exact Hp. reflexivity.
Qed.

(** ** Remove *)

(** X3: [Remove] runs the delete command of the file and returns the error
    of that run as it is, without wrapping: nil exactly when the command
    exits with status zero.  It writes nothing to the log. *)
Theorem Remove_returns_command_error (c : Client) f σ ch :
  c (dialed σ) = inr ch ->
  snd (Remove c f σ) = wait_error (outcome (exec ch (getDeleteFileCommand f))) /\
  (snd (Remove c f σ) = None <->
   exit_status (outcome (exec ch (getDeleteFileCommand f))) = Some 0%Z) /\
  log (fst (Remove c f σ)) = log σ.
Proof.
  intros Hc. unfold Remove, NewSession. rewrite Hc.
  unfold Session_Run, close_silently, Session_Close, emit. cbn [fst snd chan log].
  split; [reflexivity |]. split; [| reflexivity].
  destruct (outcome (exec ch (getDeleteFileCommand f))) as [n | | e0]; simpl.
  - destruct (Z.eqb_spec n 0) as [-> | Hn]; simpl; [tauto |].
    split; [discriminate | intros [= ?]; contradiction].
  - split; discriminate.
  - split; discriminate.
Qed.

(** ** Copy: the paths of the writer *)

(** X11: the writer closes the input channel as its last act and on every
    path: the channel is closed exactly when the writer has ended, and
    from then on nothing changes it any more. *)
Theorem Copy_closes_channel_last sched (c : Client) f σ sess st :
  Copy sched c f σ = Launched sess st ->
  (closed (stdin st) = true <-> exists r, writer st = WDone r) /\
  (forall more, closed (stdin st) = true ->
     stdin (Copy_run sess f more st) = stdin st).
Proof.
  intros HC.
  destruct (Copy_launched _ _ _ _ _ _ HC) as (ch & _ & _ & _ & _ & HI).
  destruct HI as (_ & HWI & _). unfold writer_inv in HWI.
  assert (D : closed (stdin st) = true <-> exists r, writer st = WDone r).
  { split.
    - intros E. destruct (writer st) eqn:W; try (exfalso; intuition congruence).
      eauto.
    - intros [r W]. rewrite W in HWI. tauto. }
  split; [exact D |].
  intros more E. apply D in E. destruct E as [r W]. clear HWI D HC.
  revert st W. induction more as [| t more IH]; intros st W; [reflexivity |].
  cbn [Copy_run fold_left]. fold (Copy_run sess f more (Copy_step sess f t st)).
  destruct t; cbn [Copy_step].
  - rewrite IH by now rewrite main_step_writer. apply main_step_stdin.
  - rewrite (writer_step_done f st r W). now apply IH.
  - rewrite IH by now rewrite remote_step_writer. apply remote_step_stdin.
Qed.

(** A run continued to its end from a point at which the remote command
    has not ended: the channel has taken every write. *)
Lemma to_the_end_taken sess f σ st :
  Copy_inv sess f σ st -> remote_ended st = false ->
  accepted (stdin (Copy_run sess f to_the_end st)) =
  written (stdin (Copy_run sess f to_the_end st)).
Proof.
  intros HI R. destruct (Copy_returns sess f st) as (r & r' & _ & _ & -> & _).
  destruct (Copy_inv_run sess f σ (repeat Writer_task 7) st HI) as ([_ HA] & _).
  apply HA. now rewrite writer_run_remote_ended.
Qed.

(** X9: a file whose source ends, without a read error, after exactly the
    declared number of bytes is copied whenever the remote command
    succeeds and the channel takes every write: no such run returns an
    error; and from every point at which the remote command has not
    ended, the run can be continued until [Copy] returns nil with header,
    body and zero byte taken by the closed channel. *)
Theorem Copy_succeeds sched (c : Client) f σ sess st :
  Copy sched c f σ = Launched sess st ->
  copy_error f = None ->
  Z.of_nat (length (body f)) = GetLength f ->
  wait_error (outcome (exec (chan sess) (scp_command f))) = None ->
  (accepted (stdin st) = written (stdin st) ->
   (forall r, main st = Returned r -> r = None) /\
   (forall r, writer st = WDone r -> r = None)) /\
  (remote_ended st = false ->
   main (Copy_run sess f to_the_end st) = Returned None /\
   written (stdin (Copy_run sess f to_the_end st)) =
     header_bytes f ++ body f ++ [x00] /\
   accepted (stdin (Copy_run sess f to_the_end st)) =
     header_bytes f ++ body f ++ [x00] /\
   closed (stdin (Copy_run sess f to_the_end st)) = true).
Proof.
  intros HC HE HL HR.
  destruct (Copy_launched _ _ _ _ _ _ HC) as (ch & _ & _ & _ & _ & HI).
  set (σ1 := emit _ _) in HI.
  assert (NS : forall st' e, accepted (stdin st') = written (stdin st') ->
                 ~ stored sess f (stdin st') e).
  { intros st' e A S.
    destruct (stored_clean sess f _ e A S) as [S' | S'];
      [unfold scp_remote in S' |]; congruence. }
  assert (G : forall st', Copy_inv sess f σ1 st' ->
              accepted (stdin st') = written (stdin st') ->
              (forall r, writer st' = WDone r ->
                 r = None /\ written (stdin st') = header_bytes f ++ body f ++ [x00] /\
                 closed (stdin st') = true) /\
              (forall r, main st' = Returned r -> r = None)).
  { intros st' (_ & HWI & HM & _ & _) A.
    assert (W : forall r, writer st' = WDone r ->
                 r = None /\ written (stdin st') = header_bytes f ++ body f ++ [x00] /\
                 closed (stdin st') = true).
    { intros r W. unfold writer_inv in HWI. rewrite W in HWI.
      destruct HWI as (HCl & [(Z0 & Hw & _ & Hr) | (_ & HF)]).
      - assert (B : body f = []).
        { destruct (body f); [reflexivity | cbn [length] in HL; lia]. }
        rewrite B. auto.
      - destruct HF as [(Hw & _ & _ & Hr) | [(_ & e & S & _) | (HO & Hn & _)]].
        + auto.
        + destruct (NS st' e A S).
        + destruct (copy_outcome_clean f _ _ A HO) as [_ Hc]. congruence. }
    split; [exact W |].
    intros r M. unfold main_inv in HM. rewrite M in HM.
    destruct HM as [_ [((e & S) & _) | HM]]; [destruct (NS st' e A S) |].
    now destruct (W r HM). }
  split.
  - intros A. destruct (G st HI A) as (W1 & M1).
    split; [exact M1 |]. intros r W. now destruct (W1 r W).
  - intros R.
    pose proof (to_the_end_taken sess f σ1 st HI R) as A.
    destruct (G (Copy_run sess f to_the_end st)) as (W2 & M2);
      [now apply Copy_inv_run | exact A |].
    destruct (Copy_returns sess f st) as (r & r' & W & M & _).
    destruct (W2 r W) as (_ & Hw & HCl).
    split; [now rewrite M, (M2 r' M) |]. split; [exact Hw |].
    split; [now rewrite A | exact HCl].
Qed.

(** X10: a source that ends, without a read error, with another number of
    bytes than the declared non-zero length, be it too few or too many,
    is sent whole: when the remote command succeeds and the channel takes
    every write, the only value [Copy] returns is the size mismatch with
    the count of the bytes sent; and from every point at which the remote
    command has not ended, the run can be continued until [Copy] returns
    that error, and the closed channel has taken the header and the whole
    source but no zero byte. *)
Theorem Copy_reports_size_mismatch sched (c : Client) f σ sess st :
  Copy sched c f σ = Launched sess st ->
  ending (content f) = None ->
  GetLength f <> 0%Z ->
  Z.of_nat (length (body f)) <> GetLength f ->
  wait_error (outcome (exec (chan sess) (scp_command f))) = None ->
  (accepted (stdin st) = written (stdin st) ->
   forall r, main st = Returned r ->
     r = Some (size_mismatch f (Z.of_nat (length (body f))))) /\
  (remote_ended st = false ->
   main (Copy_run sess f to_the_end st) =
     Returned (Some (size_mismatch f (Z.of_nat (length (body f))))) /\
   written (stdin (Copy_run sess f to_the_end st)) = header_bytes f ++ body f /\
   accepted (stdin (Copy_run sess f to_the_end st)) = header_bytes f ++ body f /\
   closed (stdin (Copy_run sess f to_the_end st)) = true).
Proof.
  intros HC HE HZ HL HR.
  destruct (Copy_launched _ _ _ _ _ _ HC) as (ch & _ & _ & _ & _ & HI).
  set (σ1 := emit _ _) in HI.
  assert (NS : forall st' e, accepted (stdin st') = written (stdin st') ->
                 ~ stored sess f (stdin st') e).
  { intros st' e A S.
    destruct (stored_clean sess f _ e A S) as [S' | S'].
    - unfold scp_remote in S'. congruence.
    - unfold copy_error in S'. rewrite HE in S'. discriminate. }
  assert (G : forall st', Copy_inv sess f σ1 st' ->
              accepted (stdin st') = written (stdin st') ->
              (forall r, writer st' = WDone r ->
                 r = Some (size_mismatch f (Z.of_nat (length (body f)))) /\
                 written (stdin st') = header_bytes f ++ body f /\
                 closed (stdin st') = true) /\
              (forall r, main st' = Returned r ->
                 r = Some (size_mismatch f (Z.of_nat (length (body f)))))).
  { intros st' (_ & HWI & HM & _ & _) A.
    assert (W : forall r, writer st' = WDone r ->
                 r = Some (size_mismatch f (Z.of_nat (length (body f)))) /\
                 written (stdin st') = header_bytes f ++ body f /\
                 closed (stdin st') = true).
    { intros r W. unfold writer_inv in HWI. rewrite W in HWI.
      destruct HWI as (HCl & [(Z0 & _) | (_ & HF)]); [contradiction |].
      destruct HF as [(_ & Hn & Hc & _) | [(_ & e & S & _) | (HO & _ & Hr)]].
      - congruence.
      - destruct (NS st' e A S).
      - destruct (copy_outcome_clean f _ _ A HO) as [Hw Hc].
        rewrite Hc in Hr. auto. }
    split; [exact W |].
    intros r M. unfold main_inv in HM. rewrite M in HM.
    destruct HM as [_ [((e & S) & _) | HM]]; [destruct (NS st' e A S) |].
    now destruct (W r HM). }
  split.
  - intros A. now destruct (G st HI A).
  - intros R.
    pose proof (to_the_end_taken sess f σ1 st HI R) as A.
    destruct (G (Copy_run sess f to_the_end st)) as (W2 & M2);
      [now apply Copy_inv_run | exact A |].
    destruct (Copy_returns sess f st) as (r & r' & W & M & _).
    destruct (W2 r W) as (_ & Hw & HCl).
    split; [now rewrite M, (M2 r' M) |]. split; [exact Hw |].
    split; [now rewrite A | exact HCl].
Qed.

(** X12: what [Copy] does to the transport: it opens one session and never
    closes it.  If the input pipe cannot be obtained it returns that
    error and starts nothing; otherwise the only command it starts is
    [sudo mkdir -p <dir> && sudo scp -t <dir>] for the target directory
    of the file, and it has started it by the time it returns. *)
Theorem Copy_transport_footprint sched (c : Client) f σ ch :
  c (dialed σ) = inr ch ->
  match Copy sched c f σ with
  | Refused σ' e' =>
      exists e, StdinPipe_err ch = Some e /\ e' = Wrap e "StdinPipe" /\
                trace σ' = trace σ ++ [Opened (dialed σ)] /\ log σ' = log σ
  | Launched sess st =>
      StdinPipe_err ch = None /\
      trace (world st) =
        trace σ ++ Opened (dialed σ) ::
        match main st with
        | AtCombinedOutput => []
        | _ => [Started (dialed σ)
                  ("sudo mkdir -p " +:+ GetTargetDir f +:+ " && sudo scp -t " +:+
                   GetTargetDir f)]
        end
  end.
Proof.
  intros Hc. destruct (Copy sched c f σ) as [σ1 e | sess st] eqn:E.
  - unfold Copy, NewSession in E. rewrite Hc in E. cbn [chan] in E.
    destruct (StdinPipe_err ch) as [e0 |]; [| discriminate].
    injection E as <- <-. exists e0. auto.
  - destruct (Copy_launched _ _ _ _ _ _ E) as (ch' & Hc' & Hp & -> & _ & HI).
    assert (ch' = ch) by congruence. subst ch'.
    destruct HI as (_ & _ & _ & [_ HT] & _).
    split; [exact Hp |]. rewrite HT. unfold emit. cbn [trace sid].
    rewrite <- app_assoc. reflexivity.
Qed.

(** ** Copy: the shared error variable *)

(** X13: for a file of declared length zero the writer never assigns [err],
    so the result of [Copy] is decided by the remote command alone: the
    command failure with the output of the command if it failed, nil
    otherwise, under every schedule. *)
Theorem Copy_empty_file_result sched (c : Client) f σ sess st :
  Copy sched c f σ = Launched sess st ->
  GetLength f = 0%Z ->
  forall r, main st = Returned r ->
    r = match wait_error (outcome (exec (chan sess) (scp_command f))) with
        | Some e => Some (scp_failure f e (collected (exec (chan sess) (scp_command f))))
        | None => None
        end.
Proof.
  intros HC HL.
  destruct (Copy_launched _ _ _ _ _ _ HC) as (ch & _ & _ & _ & Hst & _).
  set (σ1 := emit _ _) in Hst.
  set (we := wait_error (outcome (exec (chan sess) (scp_command f)))).
  set (expected := match we with
                   | Some e => Some (scp_failure f e (collected (exec (chan sess) (scp_command f))))
                   | None => None
                   end).
  set (Q := fun st' : CopyState =>
              match main st' with
              | AtCombinedOutput | InCombinedOutput _ _ => True
              | AtCheck => err_var st' = we
              | AtFormat => err_var st' = we /\ we <> None
              | AtWait => we = None
              | Returned r => r = expected
              end).
  assert (G : forall sched' st', Copy_inv sess f σ1 st' -> Q st' ->
                Q (Copy_run sess f sched' st')).
  { induction sched' as [| t sched' IH]; intros st' HI HQ; [exact HQ |].
    cbn [Copy_run fold_left]. fold (Copy_run sess f sched' (Copy_step sess f t st')).
    apply IH; [now apply Copy_inv_step |].
    destruct HI as (_ & HWI & HM & _ & _). unfold Q in *.
    destruct t; cbn [Copy_step].
    - unfold main_step, Session_CombinedOutput.
      unfold main_inv in HM.
      destruct (main st') eqn:M; cbn [main err_var].
      + exact I.
      + destruct (remote_ended st'); cbn [main err_var]; rewrite ?M; [| exact I].
        now destruct HM as [_ ->].
      + destruct (err_var st') as [e |] eqn:V; cbn [main err_var].
        * split; [exact HQ |]. rewrite <- HQ. discriminate.
        * now rewrite <- HQ.
      + destruct HQ as [HQ NN]. rewrite HQ. unfold expected.
        destruct we as [e |]; [| contradiction].
        destruct HM as (-> & _). reflexivity.
      + destruct (writer st') eqn:W; rewrite ?M; cbn [main]; try exact HQ.
        unfold writer_inv in HWI. rewrite W in HWI.
        destruct HWI as (_ & [(_ & _ & _ & ->) | (NZ & _)]); [| contradiction].
        unfold expected. now rewrite HQ.
      + rewrite M. exact HQ.
    - rewrite writer_step_main.
      destruct (main st'); try exact HQ;
        (rewrite writer_step_err_var; [exact HQ |]);
        intros n e W; unfold writer_inv in HWI; rewrite W in HWI;
        destruct HWI as (_ & NZ & _); contradiction.
    - rewrite remote_step_main.
      assert (E : err_var (remote_step st') = err_var st').
      { unfold remote_step. now destruct (main st'). }
      rewrite E. exact HQ. }
  intros r M. subst st.
  specialize (G sched (Copy_spawn f σ1) (Copy_inv_spawn sess f σ1) I).
  unfold Q in G. rewrite M in G. exact G.
Qed.

(** ** One session per call *)

(** X8: two calls in a row do not share a session: [Run] opens, uses and
    closes the session it was given before [Remove] opens the next one,
    which has another number, and each command is started on the session
    of its own call. *)
Theorem sessions_do_not_overlap sched (c : Client) cmd f σ ch1 ch2 :
  c (dialed σ) = inr ch1 ->
  c (S (dialed σ)) = inr ch2 ->
  trace (fst (Remove c f (fst (Run sched c cmd σ)))) =
    trace σ ++
    Opened (dialed σ) ::
    map (Started (dialed σ)) (if pipes_ok ch1 then [cmd] else []) ++
    [Closed (dialed σ);
     Opened (S (dialed σ));
     Started (S (dialed σ)) (getDeleteFileCommand f);
     Closed (S (dialed σ))].
Proof.
  intros H1 H2.
  destruct (Run_lifecycle sched c cmd σ ch1 H1) as ((D1 & T1) & _).
  rewrite <- D1 in H2.
  destruct (Remove_lifecycle c f (fst (Run sched c cmd σ)) ch2 H2) as ((_ & T2) & _).
  rewrite T2, T1, D1. rewrite <- !app_assoc. simpl.
  rewrite <- !app_assoc. reflexivity.
Qed.

End RunnerMore.

(** ** The mutex of the capture buffer *)

Module SingleWriterMore.
Import SingleWriter SingleWriterFacts.

(** X17: mutual exclusion: under every schedule at most one stream is inside
    [Write], and the mutex is held exactly while one is. *)
Theorem mutex_excludes (cs1 cs2 : list bytes) (sched : list tid) :
  (at_pc (s1 (run sched (init cs1 cs2))) = Outside \/
   at_pc (s2 (run sched (init cs1 cs2))) = Outside) /\
  (mu (w (run sched (init cs1 cs2))) = true <->
   at_pc (s1 (run sched (init cs1 cs2))) <> Outside \/
   at_pc (s2 (run sched (init cs1 cs2))) <> Outside).
Proof.
  destruct (Inv_run cs1 cs2 sched _ (Inv_init cs1 cs2))
    as (d1 & d2 & c & _ & _ & _ & HE).
  unfold exclusive in HE.
  destruct (at_pc (s1 (run sched (init cs1 cs2)))),
           (at_pc (s2 (run sched (init cs1 cs2))));
    try contradiction; destruct HE as [-> _];
    (split; [auto | split; [try discriminate; auto | intros [N | N]; congruence]]).
Qed.

(** X18: while the mutex is free the buffer holds whole chunks only: a merge
    of the chunks whose [Write] has returned, the rest of each stream
    being still to write. *)
Theorem free_mutex_whole_chunks (cs1 cs2 : list bytes) (sched : list tid) :
  mu (w (run sched (init cs1 cs2))) = false ->
  exists d1 d2 c,
    cs1 = d1 ++ todo (s1 (run sched (init cs1 cs2))) /\
    cs2 = d2 ++ todo (s2 (run sched (init cs1 cs2))) /\
    Shuffle d1 d2 c /\
    b (w (run sched (init cs1 cs2))) = concat c.
Proof.
  intros M.
  destruct (Inv_run cs1 cs2 sched _ (Inv_init cs1 cs2))
    as (d1 & d2 & c & E1 & E2 & HS & HE).
  exists d1, d2, c. repeat (split; [assumption |]).
  unfold exclusive in HE.
  destruct (at_pc (s1 (run sched (init cs1 cs2)))),
           (at_pc (s2 (run sched (init cs1 cs2))));
    try contradiction; destruct HE as [M' HE]; congruence.
Qed.

Lemma run_app sched1 sched2 st :
  run (sched1 ++ sched2) st = run sched2 (run sched1 st).
Proof. unfold run. apply fold_left_app. Qed.

(** X19: no deadlock: whatever has been scheduled so far, the schedule can be
    continued so that both streams write all their chunks. *)
Theorem can_always_finish (cs1 cs2 : list bytes) (sched : list tid) :
  exists more, finished (run (sched ++ more) (init cs1 cs2)).
Proof.
  assert (G : forall n st, Inv cs1 cs2 st -> remaining st <= n ->
                           exists more, finished (run more st)).
  { induction n as [| n IH]; intros st HI Hn.
    - destruct (finished_dec st) as [F | NF]; [now exists [] |].
      destruct (progress _ _ _ HI NF) as [t Ht]. lia.
    - destruct (finished_dec st) as [F | NF]; [now exists [] |].
      destruct (progress _ _ _ HI NF) as [t Ht].
      destruct (IH (step t st)) as [more Hs]; [now apply Inv_step | lia |].
      now exists (t :: more). }
  destruct (G (remaining (run sched (init cs1 cs2))) (run sched (init cs1 cs2)))
    as [more F]; [apply Inv_run, Inv_init | lia |].
  exists more. now rewrite run_app.
Qed.

End SingleWriterMore.

(** ** The claims on the sample host *)

#[local] Existing Instance sample_imports.

Lemma singleWriter_no_interleaving_sample :
  SingleWriter.b (SingleWriter.w
    (SingleWriter.run
       [SingleWriter.T1; SingleWriter.T2; SingleWriter.T1; SingleWriter.T1;
        SingleWriter.T1; SingleWriter.T1; SingleWriter.T2; SingleWriter.T2;
        SingleWriter.T2; SingleWriter.T2; SingleWriter.T2]
       (SingleWriter.init [[x68; x69]] [[x6c; x6f]]))) = [x68; x69; x6c; x6f].
Proof. vm_compute. reflexivity. Qed.

(** C1: a run in which [Copy] has returned while the writer has not taken
    a single step.  The remote command is started and fails before the
    writer is scheduled; [Copy] returns its error from the [if err != nil]
    branch, which does not reach [g.Wait()], so the writer has written
    nothing and the input channel is still open. *)
Theorem Copy_returns_with_writer_running :
  let f := sample_file 3 in
  let c := sample_client (Exited 1) None None in
  let sched := [Main; Remote_end; Main; Main; Main] in
  Copy sched c f fresh_world =
    Launched (sample_session (Exited 1) None None) (sample_copy (Exited 1) f sched) /\
  main (sample_copy (Exited 1) f sched) =
    Returned (Some (scp_failure f (ExitError 1) [x6e; x6f])) /\
  writer (sample_copy (Exited 1) f sched) = WHeader /\
  written (stdin (sample_copy (Exited 1) f sched)) = [] /\
  closed (stdin (sample_copy (Exited 1) f sched)) = false.
Proof. vm_compute. repeat split. Qed.

(** The writer of a short source is scheduled only after the remote
    command has ended with status 0: the header is refused, the first
    write of [io.Copy] fails with EOF, and that error, not the size
    mismatch, is what [Copy] returns from [g.Wait()]. *)
Lemma Copy_late_writer_write_error :
  let f := sample_file 5 in
  let sched := [Main; Remote_end; Main; Main] ++ repeat Writer_task 7 ++ [Main] in
  main (sample_copy (Exited 0) f sched) = Returned (Some (Wrap io_EOF "io.Copy")) /\
  accepted (stdin (sample_copy (Exited 0) f sched)) = [] /\
  written (stdin (sample_copy (Exited 0) f sched)) =
    list_byte_of_string ("C0644 5 a.txt" +:+ nl) ++ [x61; x62] /\
  closed (stdin (sample_copy (Exited 0) f sched)) = true.
Proof. vm_compute. repeat split. Qed.

(** [err] changes between the test [if err != nil] and [fmt.Errorf]: the
    remote command fails, and [io.Copy] of the writer ends without an
    error between the two reads. *)
Lemma Copy_formats_nil_error :
  let f := sample_file 3 in
  let sched := [Writer_task; Writer_task; Main; Remote_end; Main; Main;
                Writer_task; Main] in
  main (sample_copy (Exited 1) f sched) =
    Returned (Some (Errorf ("sudo mkdir -p /etc && sudo scp -t /etc: %!s(<nil>)" +:+
                            nl +:+ "output: no"))).
Proof. vm_compute. reflexivity. Qed.






Lemma Run_fails_iff_nonzero_exit_witness :
  let c := sample_client (Exited 3) None None in
  let ch := sample_channel (Exited 3) None None in
  c (dialed fresh_world) = inr ch /\
  StdoutPipe_err ch = None /\ StderrPipe_err ch = None /\
  snd (Run [true; false] c "exit 3" fresh_world) <> None.
Proof.
  intros c ch.
  assert (H1 : c (dialed fresh_world) = inr ch) by (vm_compute; reflexivity).
  assert (H2 : StdoutPipe_err ch = None) by (vm_compute; reflexivity).
  assert (H3 : StderrPipe_err ch = None) by (vm_compute; reflexivity).
  refine (conj H1 (conj H2 (conj H3 _))).
  destruct (Run_fails_iff_nonzero_exit [true; false] c "exit 3"
              fresh_world ch H1 H2 H3) as [[HN _] _].
  intros E. apply HN in E. discriminate E.
Defined.

(** C6 fails as stated: [Close] answers an error that is not end of
    stream to a [CombinedOutput] call; the session is closed and the log
    holds no entry at error level. *)
Lemma CombinedOutput_close_error_unlogged :
  let c := sample_client (Exited 0) None (Some (Failure "connection lost")) in
  let σ' := fst (CombinedOutput [] c "true" fresh_world) in
  is_EOF (Failure "connection lost") = false /\
  trace σ' = [Opened 0; Started 0 "true"; Closed 0] /\
  ~ In (ERROR, "session close: connection lost") (log σ') /\
  Forall (fun entry => fst entry <> ERROR) (log σ').
Proof.
  repeat split.
  - vm_compute. intuition discriminate.
  - vm_compute. repeat constructor; discriminate.
Qed.

Lemma session_lifecycle_witness :
  let c := sample_client (Exited 0) None (Some (Failure "connection lost")) in
  let ch := sample_channel (Exited 0) None (Some (Failure "connection lost")) in
  c (dialed fresh_world) = inr ch /\
  opened_and_closed fresh_world
    (fst (Run [] c "true" fresh_world)) ["true"] /\
  log (fst (Run [] c "true" fresh_world)) =
    log (fst (Run [] (closing_cleanly c 0) "true" fresh_world)) ++
    [(ERROR, "session close: connection lost")] /\
  opened_once fresh_world
    (Copy_world (Copy to_the_end c (sample_file 3) fresh_world)).
Proof.
  intros c ch.
  assert (H1 : c (dialed fresh_world) = inr ch) by (vm_compute; reflexivity).
  destruct (session_lifecycle c fresh_world ch H1)
    as (HRun & _ & _ & _ & HCopy).
  destruct (HRun [] "true") as (HO & _ & HL).
  exact (conj H1 (conj HO (conj HL (HCopy to_the_end (sample_file 3))))).
Defined.

(** C7 fails as stated: the stdout tee reports a read error and the
    command exits with status 3; the error returned is the exit error
    alone, and the text of the read error does not occur in it. *)
Lemma teeSSH_tee_error_not_attached :
  let s := sample_session (Exited 3) (Some (Failure "read failed")) None in
  let h := <[1 := []]> (<[0 := []]> (∅ : Heap)) in
  ending (stdout (exec (chan s) "exit 3")) = Some (Failure "read failed") /\
  snd (teeSSH [] s "exit 3" 0 1 h fresh_world) = Some (ExitError 3) /\
  mentions (ExitError 3) (Failure "read failed") = false.
Proof. vm_compute. repeat split. Qed.

Lemma teeSSH_returns_command_error_witness :
  let s := sample_session (Exited 3) (Some (Failure "read failed")) None in
  let h := <[1 := []]> (<[0 := []]> (∅ : Heap)) in
  StdoutPipe_err (chan s) = None /\ StderrPipe_err (chan s) = None /\
  snd (teeSSH [true] s "exit 3" 0 1 h fresh_world) = Some (ExitError 3) /\
  In (ERROR, "tee stdout: read failed")
     (log (snd (fst (teeSSH [true] s "exit 3" 0 1 h fresh_world)))).
Proof.
  intros s h.
  assert (H1 : StdoutPipe_err (chan s) = None) by (vm_compute; reflexivity).
  assert (H2 : StderrPipe_err (chan s) = None) by (vm_compute; reflexivity).
  destruct (teeSSH_returns_command_error [true] s "exit 3" 0 1 h
              fresh_world H1 H2) as (HE & HO & _).
  exact (conj H1 (conj H2 (conj HE (HO _ eq_refl)))).
Defined.

Lemma CombinedOutput_returns_capture_witness :
  let c := sample_client (Exited 3) None None in
  let ch := sample_channel (Exited 3) None None in
  c (dialed fresh_world) = inr ch /\
  StdoutPipe_err ch = None /\ StderrPipe_err ch = None /\
  exists merged,
    Shuffle [[x68; x69; x0a]] [[x6c; x6f]; [x0a]] merged /\
    snd (CombinedOutput [false; true] c "echo" fresh_world) =
      (string_of_list_byte (concat merged), Some (ExitError 3)).
Proof.
  intros c ch.
  assert (H1 : c (dialed fresh_world) = inr ch) by (vm_compute; reflexivity).
  assert (H2 : StdoutPipe_err ch = None) by (vm_compute; reflexivity).
  assert (H3 : StderrPipe_err ch = None) by (vm_compute; reflexivity).
  refine (conj H1 (conj H2 (conj H3 _))).
  exact (CombinedOutput_returns_capture [false; true] c "echo"
           fresh_world ch H1 H2 H3).
Defined.

(** ** The further properties on the sample host *)

Lemma teeSSH_separate_sinks_witness :
  let s := sample_session (Exited 0) None None in
  let h := <[1 := []]> (<[0 := [x21]]> (∅ : Heap)) in
  StdoutPipe_err (chan s) = None /\ StderrPipe_err (chan s) = None /\ 0 <> 1 /\
  fst (fst (teeSSH [false; true] s "echo" 0 1 h fresh_world)) !! 0 =
    Some [x21; x6c; x6f; x0a].
Proof.
  intros s h.
  assert (H1 : StdoutPipe_err (chan s) = None) by (vm_compute; reflexivity).
  assert (H2 : StderrPipe_err (chan s) = None) by (vm_compute; reflexivity).
  assert (H3 : 0 <> 1) by discriminate.
  destruct (teeSSH_separate_sinks [false; true] s "echo" 0 1 h fresh_world H1 H2 H3)
    as (E & _).
  refine (conj H1 (conj H2 (conj H3 _))). rewrite E. reflexivity.
Defined.

Lemma CombinedOutput_keeps_every_byte_witness :
  let c := sample_client (Exited 0) None None in
  let ch := sample_channel (Exited 0) None None in
  c (dialed fresh_world) = inr ch /\
  StdoutPipe_err ch = None /\ StderrPipe_err ch = None /\
  String.length (fst (snd (CombinedOutput [true] c "echo" fresh_world))) = 3 + 3.
Proof.
  intros c ch.
  assert (H1 : c (dialed fresh_world) = inr ch) by (vm_compute; reflexivity).
  assert (H2 : StdoutPipe_err ch = None) by (vm_compute; reflexivity).
  assert (H3 : StderrPipe_err ch = None) by (vm_compute; reflexivity).
  refine (conj H1 (conj H2 (conj H3 _))).
  exact (CombinedOutput_keeps_every_byte [true] c "echo" fresh_world ch H1 H2 H3).
Defined.

Lemma CombinedOutput_single_stream_witness :
  let c : Client := fun _ => inr stdout_only_channel in
  c (dialed fresh_world) = inr stdout_only_channel /\
  StdoutPipe_err stdout_only_channel = None /\
  StderrPipe_err stdout_only_channel = None /\
  fst (snd (CombinedOutput [false; true] c "echo lo" fresh_world)) =
    string_of_list_byte [x6c; x6f; x0a].
Proof.
  intros c.
  assert (H1 : c (dialed fresh_world) = inr stdout_only_channel) by (vm_compute; reflexivity).
  assert (H2 : StdoutPipe_err stdout_only_channel = None) by (vm_compute; reflexivity).
  assert (H3 : StderrPipe_err stdout_only_channel = None) by (vm_compute; reflexivity).
  refine (conj H1 (conj H2 (conj H3 _))).
  exact (proj1 (CombinedOutput_single_stream [false; true] c "echo lo" fresh_world
                  stdout_only_channel H1 H2 H3) eq_refl).
Defined.

Lemma NewSession_failure_is_returned_witness :
  refusing_client (dialed fresh_world) = inl (Failure "dial failed") /\
  snd (Run [] refusing_client "true" fresh_world) =
    Some (Wrap (Failure "dial failed") "NewSession") /\
  snd (Remove refusing_client (sample_file 3) fresh_world) =
    Some (Wrap (Failure "dial failed") "getting ssh session").
Proof.
  assert (H1 : refusing_client (dialed fresh_world) = inl (Failure "dial failed"))
    by (vm_compute; reflexivity).
  destruct (NewSession_failure_is_returned [] refusing_client fresh_world _ H1)
    as (HRun & _ & _ & HRemove & _).
  exact (conj H1 (conj (proj1 (HRun "true")) (proj1 (HRemove (sample_file 3))))).
Defined.

Lemma pipe_failure_is_returned_witness :
  let c : Client := fun _ => inr pipeless_channel in
  c (dialed fresh_world) = inr pipeless_channel /\
  StdoutPipe_err pipeless_channel = Some (Failure "no pipe") /\
  snd (CombinedOutput [] c "true" fresh_world) =
    (EmptyString, Some (Wrap (Failure "no pipe") "stdout")) /\
  trace (fst (Run [] c "true" fresh_world)) = [Opened 0; Closed 0].
Proof.
  intros c.
  assert (H1 : c (dialed fresh_world) = inr pipeless_channel) by (vm_compute; reflexivity).
  assert (H2 : StdoutPipe_err pipeless_channel = Some (Failure "no pipe"))
    by (vm_compute; reflexivity).
  destruct (pipe_failure_is_returned [] c "true" fresh_world pipeless_channel
              (Failure "no pipe") "stdout" H1 (or_introl (conj H2 eq_refl)))
    as (_ & HT & HC & _).
  exact (conj H1 (conj H2 (conj HC HT))).
Defined.

Lemma Remove_returns_command_error_witness :
  let c := sample_client (Exited 2) None None in
  let ch := sample_channel (Exited 2) None None in
  c (dialed fresh_world) = inr ch /\
  snd (Remove c (sample_file 3) fresh_world) = Some (ExitError 2).
Proof.
  intros c ch.
  assert (H1 : c (dialed fresh_world) = inr ch) by (vm_compute; reflexivity).
  exact (conj H1 (proj1 (Remove_returns_command_error c (sample_file 3)
                           fresh_world ch H1))).
Defined.

Lemma Copy_closes_channel_last_witness :
  let f := sample_file 3 in
  let c := sample_client (Exited 0) None None in
  let st := sample_copy (Exited 0) f to_the_end in
  Copy to_the_end c f fresh_world =
    Launched (sample_session (Exited 0) None None) st /\
  closed (stdin st) = true /\
  stdin (Copy_run (sample_session (Exited 0) None None) f [Writer_task; Main] st) =
    stdin st.
Proof.
  intros f c st.
  assert (H1 : Copy to_the_end c f fresh_world =
               Launched (sample_session (Exited 0) None None) st) by (vm_compute; reflexivity).
  assert (H2 : closed (stdin st) = true) by (vm_compute; reflexivity).
  destruct (Copy_closes_channel_last to_the_end c f fresh_world _ st H1) as (_ & HS).
  exact (conj H1 (conj H2 (HS [Writer_task; Main] H2))).
Defined.

Lemma Copy_succeeds_witness :
  let f := sample_file 3 in
  let c := sample_client (Exited 0) None None in
  let sess := sample_session (Exited 0) None None in
  let st := sample_copy (Exited 0) f [Writer_task] in
  Copy [Writer_task] c f fresh_world = Launched sess st /\
  copy_error f = None /\
  Z.of_nat (length (body f)) = GetLength f /\
  wait_error (outcome (exec (chan sess) (scp_command f))) = None /\
  remote_ended st = false /\
  main (Copy_run sess f to_the_end st) = Returned None /\
  accepted (stdin (Copy_run sess f to_the_end st)) =
    header_bytes f ++ [x61; x62; x63] ++ [x00].
Proof.
  intros f c sess st.
  assert (H1 : Copy [Writer_task] c f fresh_world = Launched sess st) by (vm_compute; reflexivity).
  assert (H2 : copy_error f = None) by (vm_compute; reflexivity).
  assert (H3 : Z.of_nat (length (body f)) = GetLength f) by (vm_compute; reflexivity).
  assert (H4 : wait_error (outcome (exec (chan sess) (scp_command f))) = None)
    by (vm_compute; reflexivity).
  assert (H5 : remote_ended st = false) by (vm_compute; reflexivity).
  destruct (Copy_succeeds [Writer_task] c f fresh_world sess st H1 H2 H3 H4)
    as (_ & HL).
  destruct (HL H5) as (HM & _ & HA & _).
  exact (conj H1 (conj H2 (conj H3 (conj H4 (conj H5 (conj HM HA)))))).
Defined.

Lemma Copy_reports_size_mismatch_witness :
  let f := sample_file 2 in
  let c := sample_client (Exited 0) None None in
  let sess := sample_session (Exited 0) None None in
  let st := sample_copy (Exited 0) f [Main] in
  Copy [Main] c f fresh_world = Launched sess st /\
  ending (content f) = None /\
  GetLength f <> 0%Z /\
  Z.of_nat (length (body f)) <> GetLength f /\
  wait_error (outcome (exec (chan sess) (scp_command f))) = None /\
  remote_ended st = false /\
  main (Copy_run sess f to_the_end st) = Returned (Some (size_mismatch f 3)) /\
  accepted (stdin (Copy_run sess f to_the_end st)) = header_bytes f ++ [x61; x62; x63].
Proof.
  intros f c sess st.
  assert (H1 : Copy [Main] c f fresh_world = Launched sess st) by (vm_compute; reflexivity).
  assert (H2 : ending (content f) = None) by (vm_compute; reflexivity).
  assert (H3 : GetLength f <> 0%Z) by discriminate.
  assert (H4 : Z.of_nat (length (body f)) <> GetLength f) by discriminate.
  assert (H5 : wait_error (outcome (exec (chan sess) (scp_command f))) = None)
    by (vm_compute; reflexivity).
  assert (H6 : remote_ended st = false) by (vm_compute; reflexivity).
  destruct (Copy_reports_size_mismatch [Main] c f fresh_world sess st H1 H2 H3 H4 H5)
    as (_ & HL).
  destruct (HL H6) as (HM & _ & HA & _).
  exact (conj H1 (conj H2 (conj H3 (conj H4 (conj H5 (conj H6 (conj HM HA))))))).
Defined.

Lemma Copy_transport_footprint_witness :
  let f := sample_file 3 in
  let c := sample_client (Exited 0) None None in
  let ch := sample_channel (Exited 0) None None in
  c (dialed fresh_world) = inr ch /\
  trace (Copy_world (Copy to_the_end c f fresh_world)) =
    [Opened 0; Started 0 "sudo mkdir -p /etc && sudo scp -t /etc"].
Proof.
  intros f c ch.
  assert (H1 : c (dialed fresh_world) = inr ch) by (vm_compute; reflexivity).
  pose proof (Copy_transport_footprint to_the_end c f fresh_world ch H1) as T.
  destruct T as [_ T]. exact (conj H1 T).
Defined.

Lemma Copy_empty_file_result_witness :
  let f := empty_file in
  let c := sample_client (Exited 1) None None in
  let sess := sample_session (Exited 1) None None in
  let st := sample_copy (Exited 1) f to_the_end in
  Copy to_the_end c f fresh_world = Launched sess st /\
  GetLength f = 0%Z /\
  main st = Returned (Some (scp_failure f (ExitError 1) [x6e; x6f])).
Proof.
  intros f c sess st.
  assert (H1 : Copy to_the_end c f fresh_world = Launched sess st) by (vm_compute; reflexivity).
  assert (H2 : GetLength f = 0%Z) by (vm_compute; reflexivity).
  assert (M : main st = Returned (Some (scp_failure f (ExitError 1) [x6e; x6f])))
    by (vm_compute; reflexivity).
  pose proof (Copy_empty_file_result to_the_end c f fresh_world sess st H1 H2 _ M) as E.
  rewrite E in M. exact (conj H1 (conj H2 M)).
Defined.

Lemma free_mutex_whole_chunks_witness :
  let cs1 := [[x68; x69]; [x21]] in
  let cs2 := [[x6c; x6f]] in
  let sched := [SingleWriter.T1; SingleWriter.T2; SingleWriter.T1;
                SingleWriter.T1; SingleWriter.T1; SingleWriter.T1] in
  SingleWriter.mu (SingleWriter.w (SingleWriter.run sched (SingleWriter.init cs1 cs2)))
    = false /\
  exists d1 d2 c,
    cs1 = d1 ++ SingleWriter.todo
                  (SingleWriter.s1 (SingleWriter.run sched (SingleWriter.init cs1 cs2))) /\
    cs2 = d2 ++ SingleWriter.todo
                  (SingleWriter.s2 (SingleWriter.run sched (SingleWriter.init cs1 cs2))) /\
    Shuffle d1 d2 c /\
    SingleWriter.b (SingleWriter.w (SingleWriter.run sched (SingleWriter.init cs1 cs2)))
      = concat c.
Proof.
  intros cs1 cs2 sched.
  assert (H1 : SingleWriter.mu
                 (SingleWriter.w (SingleWriter.run sched (SingleWriter.init cs1 cs2)))
               = false) by (vm_compute; reflexivity).
  exact (conj H1 (SingleWriterMore.free_mutex_whole_chunks cs1 cs2 sched H1)).
Defined.

Lemma scp_header_unambiguous_witness :
  let f := sample_file 3 in
  let g := failing_file in
  occurs " " (GetPermissions f) = false /\
  occurs " " (GetPermissions g) = false /\
  scp_header f = scp_header g /\
  GetLength f = GetLength g.
Proof.
  intros f g.
  assert (H1 : occurs " " (GetPermissions f) = false) by (vm_compute; reflexivity).
  assert (H2 : occurs " " (GetPermissions g) = false) by (vm_compute; reflexivity).
  assert (H3 : scp_header f = scp_header g) by (vm_compute; reflexivity).
  destruct (scp_header_unambiguous f g H1 H2 H3) as (_ & HL & _).
  exact (conj H1 (conj H2 (conj H3 HL))).
Defined.

Lemma sessions_do_not_overlap_witness :
  let c := sample_client (Exited 0) None None in
  let ch := sample_channel (Exited 0) None None in
  c (dialed fresh_world) = inr ch /\ c (S (dialed fresh_world)) = inr ch /\
  trace (fst (Remove c (sample_file 3) (fst (Run [true] c "true" fresh_world)))) =
    [Opened 0; Started 0 "true"; Closed 0;
     Opened 1; Started 1 "sudo rm /etc/a.txt"; Closed 1].
Proof.
  intros c ch.
  assert (H1 : c (dialed fresh_world) = inr ch) by (vm_compute; reflexivity).
  assert (H2 : c (S (dialed fresh_world)) = inr ch) by (vm_compute; reflexivity).
  exact (conj H1 (conj H2
           (sessions_do_not_overlap [true] c "true" (sample_file 3) fresh_world
              ch ch H1 H2))).
Defined.
